(** * react-vtk-js: render scheduling, visibility latch and resource hooks

    A shallow embedding of the parts of the React/vtk.js bridge that carry
    state between synchronization passes:

    - [View]                    core/View.tsx (render scheduler, camera reset,
                                prop defaults, the imperative view API);
    - [ColorTransferFunction]   core/modules/useColorTransferFunction.ts;
    - [SliceRepresentation]     core/SliceRepresentation.tsx (visibility
                                latch, colour range, dirty-flag consumption);
    - [GetterRef], [BooleanAccumulator], [ComparableEffect],
      [DeletionRegistry]        the utility hooks those files import.

    React itself and the vtk.js engine are external.  What the code relies
    on is written out: a [useState] cell is a committed value plus a queue
    of pending updates, an effect runs after a render pass when its
    dependency list changed, and every native call is appended to a log. *)

From Stdlib Require Import QArith.
From stdpp Require Import functions.
From stdpp Require Import base option list gmap strings.

(** ** React state cells *)

Module React.

(** [useState]: the value the last render pass saw, and the updates
    queued since.  A setter never changes [committed]; the next render
    pass folds the queue (plain values: the last one wins). *)
Record StateCell (A : Type) : Type := mkCell {
  committed : A;
  pending : list A;
}.
Arguments mkCell {A} _ _.
Arguments committed {A} _.
Arguments pending {A} _.

Definition useState {A : Type} (initial : A) : StateCell A :=
  mkCell initial [].

Definition setState {A : Type} (v : A) (c : StateCell A) : StateCell A :=
  mkCell (committed c) (pending c ++ [v]).

Definition processUpdates {A : Type} (c : StateCell A) : StateCell A :=
  mkCell (List.last (pending c) (committed c)) [].

Lemma processUpdates_setState {A : Type} (v : A) (c : StateCell A) :
  processUpdates (setState v c) = mkCell v [].
Proof. unfold processUpdates, setState; simpl. by rewrite last_last. Qed.

Lemma pending_iter_setState {A : Type} (v : A) (n : nat) (c : StateCell A) :
  pending (Nat.iter n (setState v) c) = pending c ++ replicate n v.
Proof.
  induction n as [|n IH]; simpl.
  - by rewrite app_nil_r.
  - rewrite IH, <- app_assoc. f_equal.
    change [v] with (replicate 1 v). rewrite <- replicate_add.
    by rewrite Nat.add_comm.
Qed.

Lemma committed_iter_setState {A : Type} (v : A) (n : nat) (c : StateCell A) :
  committed (Nat.iter n (setState v) c) = committed c.
Proof. induction n as [|n IH]; simpl; auto. Qed.

End React.

(** ** core/View.tsx *)

Module View.
Import React.

(** [DefaultProps] of the view (the fields the scheduler reads). *)
Module DefaultProps.
Definition interactive : bool := true.
Definition autoResetCamera : bool := true.
Definition autoCenterOfRotation : bool := true.
End DefaultProps.

Section Engine.

(** The vtk.js side is opaque: bounds, points, a camera whose focal point
    can be read, the camera values of the [camera] prop, and whatever
    [useCamera] keeps between render passes. *)
Context {Bounds Vector3 Camera ICameraInitialValues CameraHook : Type}.

(** The optional props of [Props]; [None] is an omitted ([undefined])
    prop, which is what a destructuring default replaces.  [cameraProps]
    is the [camera] prop ([camera: cameraProps] in the destructuring). *)
Record Props : Type := mkProps {
  interactive : option bool;
  autoResetCamera : option bool;
  autoCenterOfRotation : option bool;
  cameraProps : option ICameraInitialValues;
}.

(** [const { interactive = DefaultProps.interactive, ... } = props] *)
Definition interactiveOf (props : Props) : bool :=
  default DefaultProps.interactive (interactive props).
Definition autoResetCameraOf (props : Props) : bool :=
  default DefaultProps.autoResetCamera (autoResetCamera props).
Definition autoCenterOfRotationOf (props : Props) : bool :=
  default DefaultProps.autoCenterOfRotation (autoCenterOfRotation props).

(** A view mounted with no configuration at all: [<View />]. *)
Definition noProps : Props := mkProps None None None None.

(** What one update cycle finds around the component:
    whether ['setCenterOfRotation' in getInteractorStyle()] holds, the
    identity of the memoised getters (they come from hooks outside this
    file), how many [requestRender()] calls the effects of descendants
    make (they run before the view's own effects in the same commit, as
    the representation's does), and how many the engine's [render()]
    raises while it runs. *)
Record Env : Type := mkEnv {
  styleHasCenterOfRotation : bool;
  getterIdentity : nat;
  requestsFromEffects : nat;
  requestsDuringRender : nat;
}.

(** The dependency list of the settle effect:
    [[renderRequested, autoResetCamera, resetCamera, getRenderWindow]].
    [resetCamera] is a [useCallback] over [autoCenterOfRotation] and the
    getters, so its identity is that pair. *)
Record Deps : Type := mkDeps {
  depRenderRequested : bool;
  depAutoResetCamera : bool;
  depResetCamera : bool * nat;
  depGetRenderWindow : nat;
}.

Definition Deps_eqb (a b : Deps) : bool :=
  Bool.eqb (depRenderRequested a) (depRenderRequested b)
  && Bool.eqb (depAutoResetCamera a) (depAutoResetCamera b)
  && Bool.eqb (fst (depResetCamera a)) (fst (depResetCamera b))
  && Nat.eqb (snd (depResetCamera a)) (snd (depResetCamera b))
  && Nat.eqb (depGetRenderWindow a) (depGetRenderWindow b).

Variable getFocalPoint : Camera -> Vector3.
Variable rendererResetCamera : option Bounds -> Camera -> Camera.

(** [useCamera(getRenderer, requestRender, cameraProps)] comes from
    modules/useCamera, which is not in this file.  The view hands it the
    camera props, the renderer (and so the camera) and [requestRender]:
    given the props, what the hook keeps between passes and the camera,
    its effect leaves a hook state and a camera, and makes some number of
    [requestRender()] calls.  [newCameraHook] is what the hook keeps
    before the first pass. *)
Variable useCamera :
  option ICameraInitialValues -> CameraHook -> Camera -> CameraHook * Camera * nat.
Variable newCameraHook : CameraHook.

(** Calls the view makes on the engine, in the order they are made. *)
Inductive NativeCall : Type :=
  | RendererResetCamera (boundsToUse : option Bounds)
  | StyleSetCenterOfRotation (center : Vector3)
  | RenderWindowRender.

Definition isRender (c : NativeCall) : bool :=
  match c with RenderWindowRender => true | _ => false end.

Record ViewState : Type := mkView {
  renderRequested : StateCell bool;   (* useState(false) *)
  settleDeps : option Deps;           (* deps of the settle effect's last run *)
  cameraHook : CameraHook;            (* what useCamera keeps *)
  camera : Camera;
  calls : list NativeCall;
}.

Definition withRenderRequested (c : StateCell bool) (s : ViewState) : ViewState :=
  mkView c (settleDeps s) (cameraHook s) (camera s) (calls s).
Definition withSettleDeps (d : option Deps) (s : ViewState) : ViewState :=
  mkView (renderRequested s) d (cameraHook s) (camera s) (calls s).
Definition withCameraHook (hook : CameraHook) (s : ViewState) : ViewState :=
  mkView (renderRequested s) (settleDeps s) hook (camera s) (calls s).
Definition withCamera (cam : Camera) (s : ViewState) : ViewState :=
  mkView (renderRequested s) (settleDeps s) (cameraHook s) cam (calls s).
Definition native (c : NativeCall) (s : ViewState) : ViewState :=
  mkView (renderRequested s) (settleDeps s) (cameraHook s) (camera s)
    (calls s ++ [c]).

(** [const [renderRequested, setRenderRequested] = useState(false)] *)
Definition setRenderRequested (b : bool) (s : ViewState) : ViewState :=
  withRenderRequested (setState b (renderRequested s)) s.

(** [const requestRender = () => setRenderRequested(true)] *)
Definition requestRender (s : ViewState) : ViewState :=
  setRenderRequested true s.

(** [resetCamera = useCallback((boundsToUse?) => { ... })] *)
Definition resetCamera (props : Props) (env : Env)
    (boundsToUse : option Bounds) (s : ViewState) : ViewState :=
  let s := native (RendererResetCamera boundsToUse)
             (withCamera (rendererResetCamera boundsToUse (camera s)) s) in
  if autoCenterOfRotationOf props && styleHasCenterOfRotation env
  then native (StyleSetCenterOfRotation (getFocalPoint (camera s))) s
  else s.

(** [getRenderWindow().render()], with the requests the engine raises
    while it runs. *)
Definition renderWindowRender (env : Env) (s : ViewState) : ViewState :=
  Nat.iter (requestsDuringRender env) requestRender (native RenderWindowRender s).

(** The body of the settle effect. *)
Definition settleBody (props : Props) (env : Env) (s : ViewState) : ViewState :=
  if committed (renderRequested s) then
    let s := if autoResetCameraOf props then resetCamera props env None s else s in
    let s := renderWindowRender env s in
    setRenderRequested false s
  else s.

Definition currentDeps (props : Props) (env : Env) (s : ViewState) : Deps :=
  mkDeps (committed (renderRequested s))
         (autoResetCameraOf props)
         (autoCenterOfRotationOf props, getterIdentity env)
         (getterIdentity env).

(** An effect is due on mount and whenever a dependency changed. *)
Definition effectDue (props : Props) (env : Env) (s : ViewState) : bool :=
  match settleDeps s with
  | None => true
  | Some d => negb (Deps_eqb d (currentDeps props env s))
  end.

Definition settleEffect (props : Props) (env : Env) (s : ViewState) : ViewState :=
  if effectDue props env s
  then settleBody props env (withSettleDeps (Some (currentDeps props env s)) s)
  else s.

(** The effect of [useCamera].  The hook is called before the settle
    effect is declared, so its effect runs first. *)
Definition cameraEffect (props : Props) (s : ViewState) : ViewState :=
  let '(hook, cam, requests) :=
    useCamera (cameraProps props) (cameraHook s) (camera s) in
  Nat.iter requests requestRender (withCameraHook hook (withCamera cam s)).

(** One render pass of the component: the state queue is folded, the
    effects of descendants make their [fromEffects] requests, the effect
    of [useCamera] runs, then the settle effect runs if it is due. *)
Definition renderPass (props : Props) (env : Env) (fromEffects : nat)
    (s : ViewState) : ViewState :=
  settleEffect props env
    (cameraEffect props
       (Nat.iter fromEffects requestRender
          (withRenderRequested (processUpdates (renderRequested s)) s))).

(** React renders the view again for as long as the previous pass queued
    a state update; descendants are not rendered again by that. *)
Fixpoint flushUpdates (fuel : nat) (props : Props) (env : Env)
    (s : ViewState) : ViewState :=
  match fuel with
  | 0 => s
  | S fuel =>
      match pending (renderRequested s) with
      | [] => s
      | _ :: _ => flushUpdates fuel props env (renderPass props env 0 s)
      end
  end.

(** One update cycle in which nothing happens between the passes: a
    render pass of the tree, then passes of the view until nothing is
    queued. *)
Definition updateCycle (fuel : nat) (props : Props) (env : Env)
    (s : ViewState) : ViewState :=
  flushUpdates fuel props env (renderPass props env (requestsFromEffects env) s).

(** The state the first render pass starts from. *)
Definition initial (cam : Camera) : ViewState :=
  mkView (useState false) None newCameraHook cam [].

(** The [resetCamera] of the imperative view API (the [useMemo] object):
    [resetCamera(boundsToUse); requestRender();] *)
Definition viewResetCamera (props : Props) (env : Env)
    (boundsToUse : option Bounds) (s : ViewState) : ViewState :=
  requestRender (resetCamera props env boundsToUse s).

(** Calls on the view API from outside the view's own effects (event
    handlers, timers, owners of the ref, effects of other components).
    [resetCamera] works with the props and style of the pass that built
    the API object. *)
Inductive ApiCall : Type :=
  | CallRequestRender
  | CallResetCamera (props : Props) (env : Env) (boundsToUse : option Bounds).

Definition apiCall (s : ViewState) (c : ApiCall) : ViewState :=
  match c with
  | CallRequestRender => requestRender s
  | CallResetCamera props env boundsToUse =>
      viewResetCamera props env boundsToUse s
  end.

(** A cycle of a view's life: the API calls made since the last one
    ([before]), a render pass of the tree under some props and
    surroundings, the API calls that land after the effects of that pass
    and before React renders the view again ([late]: timers, effects
    that run after the view's, such as those of components outside it
    and of [useViewResize], which is handed the view), and then passes
    of the view until nothing is queued.  The first cycle of a history
    is the mount.  A call that lands between two later passes of a cycle
    is the [before] or [late] of a cycle of its own, whose tree pass
    finds no request from a descendant. *)
Record Cycle : Type := mkCycle {
  before : list ApiCall;
  cycleProps : Props;
  cycleEnv : Env;
  late : list ApiCall;
}.

Definition runCycle (fuel : nat) (s : ViewState) (c : Cycle) : ViewState :=
  flushUpdates fuel (cycleProps c) (cycleEnv c)
    (foldl apiCall
       (renderPass (cycleProps c) (cycleEnv c)
          (requestsFromEffects (cycleEnv c))
          (foldl apiCall s (before c)))
       (late c)).

Definition runHistory (fuel : nat) (history : list Cycle) (cam : Camera)
    : ViewState :=
  foldl (runCycle fuel) (initial cam) history.

Definition nativeRenders (s : ViewState) : nat :=
  length (filter isRender (calls s)).

(** The flag a render pass will find: the last queued update, or the
    committed value. *)
Definition flagAtNextPass (s : ViewState) : bool :=
  List.last (pending (renderRequested s)) (committed (renderRequested s)).

(** The settle effect did not last run with the flag set. *)
Definition effectSawClear (s : ViewState) : Prop :=
  depRenderRequested <$> settleDeps s <> Some true.

(** Between update cycles: flag clear, nothing queued, and the settle
    effect did not last run with the flag set. *)
Definition quiescent (s : ViewState) : Prop :=
  committed (renderRequested s) = false
  /\ pending (renderRequested s) = []
  /\ effectSawClear s.

(** The engine calls one [resetCamera(boundsToUse)] makes, from a camera. *)
Definition cameraResetCalls (props : Props) (env : Env)
    (boundsToUse : option Bounds) (cam : Camera) : list NativeCall :=
  RendererResetCamera boundsToUse ::
  (if autoCenterOfRotationOf props && styleHasCenterOfRotation env
   then [StyleSetCenterOfRotation
           (getFocalPoint (rendererResetCamera boundsToUse cam))]
   else []).

(** The engine calls of a settle step that finds the flag set. *)
Definition settleCalls (props : Props) (env : Env) (cam : Camera)
    : list NativeCall :=
  (if autoResetCameraOf props then cameraResetCalls props env None cam else [])
  ++ [RenderWindowRender].

(** What the effect of [useCamera] does in a pass from [s]: the requests
    it makes, and the state with its hook and camera. *)
Definition cameraRequests (props : Props) (s : ViewState) : nat :=
  (useCamera (cameraProps props) (cameraHook s) (camera s)).2.

Definition hooked (props : Props) (s : ViewState) : ViewState :=
  let r := useCamera (cameraProps props) (cameraHook s) (camera s) in
  withCameraHook r.1.1 (withCamera r.1.2 s).

(** The hook has nothing more to do under these camera props. *)
Definition hookSettled (props : Props) (s : ViewState) : Prop :=
  forall cam,
    useCamera (cameraProps props) (cameraHook s) cam = (cameraHook s, cam, 0).

(** A pass without the effect of [useCamera]. *)
Definition settlePass (props : Props) (env : Env) (k : nat)
    (s : ViewState) : ViewState :=
  settleEffect props env
    (Nat.iter k requestRender
       (withRenderRequested (processUpdates (renderRequested s)) s)).

(** The dependency list of a pass that runs with the flag set. *)
Definition depsWhenSet (props : Props) (env : Env) : Deps :=
  mkDeps true (autoResetCameraOf props)
    (autoCenterOfRotationOf props, getterIdentity env) (getterIdentity env).

(** A cycle asks for a render when an API call came before it or the
    effect of a descendant asks for one. *)
Definition cycleWantsRender (c : Cycle) : bool :=
  match before c with [] => false | _ :: _ => true end
  || (0 <? requestsFromEffects (cycleEnv c)).

(** No call lands between the effects of the tree pass and the next
    pass of the view. *)
Definition noLateCall (c : Cycle) : bool :=
  match late c with [] => true | _ :: _ => false end.

(** *** Field lemmas *)

Lemma renderRequested_iter_requestRender n s :
  renderRequested (Nat.iter n requestRender s)
  = Nat.iter n (setState true) (renderRequested s).
Proof. induction n as [|n IH]; simpl; [done|]. by rewrite IH. Qed.

Lemma calls_iter_requestRender n s :
  calls (Nat.iter n requestRender s) = calls s.
Proof. induction n as [|n IH]; simpl; auto. Qed.

Lemma camera_iter_requestRender n s :
  camera (Nat.iter n requestRender s) = camera s.
Proof. induction n as [|n IH]; simpl; auto. Qed.

Lemma cameraHook_iter_requestRender n s :
  cameraHook (Nat.iter n requestRender s) = cameraHook s.
Proof. induction n as [|n IH]; simpl; auto. Qed.

Lemma settleDeps_iter_requestRender n s :
  settleDeps (Nat.iter n requestRender s) = settleDeps s.
Proof. induction n as [|n IH]; simpl; auto. Qed.

Lemma flagAtNextPass_iter_requestRender n s :
  flagAtNextPass (Nat.iter n requestRender s) = (0 <? n) || flagAtNextPass s.
Proof.
  unfold flagAtNextPass.
  rewrite renderRequested_iter_requestRender, pending_iter_setState,
    committed_iter_setState.
  destruct n as [|n]; simpl; [by rewrite app_nil_r|].
  change (true :: replicate n true) with (replicate (S n) true).
  replace (S n) with (n + 1) by lia.
  rewrite replicate_add, app_assoc. simpl. by rewrite last_last.
Qed.

Lemma calls_resetCamera props env b s :
  calls (resetCamera props env b s)
  = calls s ++ cameraResetCalls props env b (camera s).
Proof.
  unfold resetCamera, cameraResetCalls.
  destruct (autoCenterOfRotationOf props && styleHasCenterOfRotation env);
    simpl; [|done].
  by rewrite <- app_assoc.
Qed.


Lemma cameraHook_resetCamera props env b s :
  cameraHook (resetCamera props env b s) = cameraHook s.
Proof.
  unfold resetCamera.
  by destruct (autoCenterOfRotationOf props && styleHasCenterOfRotation env).
Qed.

Lemma renderRequested_resetCamera props env b s :
  renderRequested (resetCamera props env b s) = renderRequested s.
Proof.
  unfold resetCamera.
  by destruct (autoCenterOfRotationOf props && styleHasCenterOfRotation env).
Qed.

Lemma settleDeps_resetCamera props env b s :
  settleDeps (resetCamera props env b s) = settleDeps s.
Proof.
  unfold resetCamera.
  by destruct (autoCenterOfRotationOf props && styleHasCenterOfRotation env).
Qed.

Lemma filter_isRender_cameraResetCalls props env b cam :
  filter isRender (cameraResetCalls props env b cam) = [].
Proof.
  unfold cameraResetCalls.
  by destruct (autoCenterOfRotationOf props && styleHasCenterOfRotation env).
Qed.

Lemma renders_of_settleCalls props env cam :
  length (filter isRender (settleCalls props env cam)) = 1.
Proof.
  unfold settleCalls. rewrite filter_app.
  destruct (autoResetCameraOf props);
    [rewrite filter_isRender_cameraResetCalls|]; done.
Qed.

Lemma nativeRenders_calls s s' extra :
  calls s' = calls s ++ extra ->
  nativeRenders s' = nativeRenders s + length (filter isRender extra).
Proof.
  unfold nativeRenders. intros ->. by rewrite filter_app, length_app.
Qed.

Lemma Deps_eqb_flag a b :
  depRenderRequested a <> depRenderRequested b -> Deps_eqb a b = false.
Proof.
  unfold Deps_eqb. intros H.
  destruct (depRenderRequested a), (depRenderRequested b); simpl; congruence.
Qed.

Lemma Deps_eqb_true_flag a b :
  Deps_eqb a b = true -> depRenderRequested a = depRenderRequested b.
Proof.
  unfold Deps_eqb. intros H.
  destruct (depRenderRequested a), (depRenderRequested b); simpl in *; congruence.
Qed.

Lemma Deps_eqb_refl d : Deps_eqb d d = true.
Proof.
  unfold Deps_eqb. by rewrite !Bool.eqb_reflx, !Nat.eqb_refl.
Qed.

Lemma Deps_eqb_flag_or_reset a b :
  depRenderRequested a <> depRenderRequested b
  \/ depAutoResetCamera a <> depAutoResetCamera b ->
  Deps_eqb a b = false.
Proof.
  unfold Deps_eqb. intros [H|H].
  - destruct (depRenderRequested a), (depRenderRequested b); simpl; congruence.
  - destruct (depAutoResetCamera a), (depAutoResetCamera b); simpl;
      rewrite ?andb_false_r; simpl; congruence.
Qed.

(** *** The settle effect *)

Lemma settleBody_set props env s :
  committed (renderRequested s) = true ->
  let s' := settleBody props env s in
  calls s' = calls s ++ settleCalls props env (camera s)
  /\ pending (renderRequested s')
     = pending (renderRequested s)
       ++ replicate (requestsDuringRender env) true ++ [false]
  /\ committed (renderRequested s') = true
  /\ settleDeps s' = settleDeps s.
Proof.
  intros Hset. unfold settleBody, settleCalls. rewrite Hset. cbv zeta.
  unfold setRenderRequested, renderWindowRender, withRenderRequested. simpl.
  rewrite calls_iter_requestRender, settleDeps_iter_requestRender,
    renderRequested_iter_requestRender.
  rewrite pending_iter_setState, committed_iter_setState. simpl.
  destruct (autoResetCameraOf props).
  - rewrite calls_resetCamera, renderRequested_resetCamera,
      settleDeps_resetCamera.
    rewrite <- !app_assoc. by rewrite Hset.
  - simpl. rewrite <- !app_assoc. by rewrite Hset.
Qed.

Lemma cameraHook_settleEffect props env s :
  cameraHook (settleEffect props env s) = cameraHook s.
Proof.
  unfold settleEffect. destruct (effectDue props env s); [|done].
  unfold settleBody. simpl. destruct (committed (renderRequested s)); [|done].
  unfold setRenderRequested, renderWindowRender. simpl.
  rewrite cameraHook_iter_requestRender. simpl.
  destruct (autoResetCameraOf props); [|done].
  by rewrite cameraHook_resetCamera.
Qed.

Lemma settleEffect_set props env s :
  committed (renderRequested s) = true ->
  effectSawClear s ->
  settleEffect props env s
  = settleBody props env (withSettleDeps (Some (currentDeps props env s)) s).
Proof.
  intros Hset Hclear. unfold settleEffect, effectDue.
  destruct (settleDeps s) as [d|] eqn:Hd; [|done].
  rewrite Deps_eqb_flag; [done|].
  simpl. rewrite Hset. intros Hflag. apply Hclear.
  unfold effectSawClear. rewrite Hd. simpl. by rewrite Hflag.
Qed.

Lemma settleEffect_clear props env s :
  committed (renderRequested s) = false ->
  let s' := settleEffect props env s in
  calls s' = calls s /\ camera s' = camera s
  /\ renderRequested s' = renderRequested s
  /\ effectSawClear s'.
Proof.
  intros Hclear. cbv zeta. unfold settleEffect, effectDue, effectSawClear.
  destruct (settleDeps s) as [d|] eqn:Hd.
  - destruct (Deps_eqb d (currentDeps props env s)) eqn:E; simpl.
    + rewrite Hd. simpl. apply Deps_eqb_true_flag in E. simpl in E.
      rewrite E, Hclear. by repeat split.
    + unfold settleBody; simpl. rewrite Hclear. simpl. rewrite Hclear.
      by repeat split.
  - unfold settleBody; simpl. rewrite Hclear. simpl. rewrite Hclear.
    by repeat split.
Qed.

(** *** Passes without the camera hook *)

(** What the settle effect of a pass starts from. *)
Lemma pass_start k s :
  let s0 := Nat.iter k requestRender
              (withRenderRequested (processUpdates (renderRequested s)) s) in
  committed (renderRequested s0) = flagAtNextPass s
  /\ pending (renderRequested s0) = replicate k true
  /\ settleDeps s0 = settleDeps s
  /\ calls s0 = calls s /\ camera s0 = camera s.
Proof.
  cbv zeta.
  rewrite renderRequested_iter_requestRender, pending_iter_setState,
    committed_iter_setState, settleDeps_iter_requestRender,
    calls_iter_requestRender, camera_iter_requestRender.
  by repeat split.
Qed.

Lemma cameraHook_settlePass props env k s :
  cameraHook (settlePass props env k s) = cameraHook s.
Proof.
  unfold settlePass.
  by rewrite cameraHook_settleEffect, cameraHook_iter_requestRender.
Qed.

(** A pass that finds the flag raised since the effect last ran: the
    effect is due and its body runs with the flag set. *)
Lemma settlePass_raised props env k s :
  flagAtNextPass s = true ->
  effectSawClear s ->
  let s' := settlePass props env k s in
  calls s' = calls s ++ settleCalls props env (camera s)
  /\ pending (renderRequested s')
     = replicate k true ++ replicate (requestsDuringRender env) true ++ [false]
  /\ committed (renderRequested s') = true
  /\ settleDeps s' = Some (depsWhenSet props env).
Proof.
  intros Hflag Hclear. cbv zeta. unfold settlePass.
  destruct (pass_start k s) as (Hc & Hp & Hd & Hcalls & Hcam).
  set (s0 := Nat.iter k requestRender _) in *.
  rewrite Hflag in Hc.
  rewrite settleEffect_set by (done || (unfold effectSawClear; by rewrite Hd)).
  destruct (settleBody_set props env
              (withSettleDeps (Some (currentDeps props env s0)) s0) Hc)
    as (Hcalls' & Hp' & Hc' & Hd').
  simpl in *. rewrite Hcalls', Hp', Hc', Hd', Hcalls, Hcam, Hp.
  unfold currentDeps, depsWhenSet; simpl. by rewrite Hc.
Qed.

(** A pass that finds the flag clear: nothing reaches the engine, and
    only what the effects before the settle effect asked for is queued. *)
Lemma settlePass_cleared props env k s :
  flagAtNextPass s = false ->
  let s' := settlePass props env k s in
  calls s' = calls s /\ camera s' = camera s
  /\ committed (renderRequested s') = false
  /\ pending (renderRequested s') = replicate k true
  /\ effectSawClear s'.
Proof.
  intros Hflag. cbv zeta. unfold settlePass.
  destruct (pass_start k s) as (Hc & Hp & Hd & Hcalls & Hcam).
  set (s0 := Nat.iter k requestRender _) in *.
  rewrite Hflag in Hc.
  destruct (settleEffect_clear props env s0 Hc) as (Hcalls' & Hcam' & Hr & Hsaw).
  rewrite Hcalls', Hcam', Hr, Hc, Hp. by repeat split.
Qed.

(** A pass that finds the flag set and the dependency list it last ran
    with: the effect is not due, nothing happens. *)
Lemma settlePass_gated props env k s :
  flagAtNextPass s = true ->
  settleDeps s = Some (depsWhenSet props env) ->
  let s' := settlePass props env k s in
  calls s' = calls s
  /\ renderRequested s' = mkCell true (replicate k true)
  /\ settleDeps s' = settleDeps s.
Proof.
  intros Hflag Hdeps. cbv zeta. unfold settlePass.
  destruct (pass_start k s) as (Hc & Hp & Hd & Hcalls & _).
  set (s0 := Nat.iter k requestRender _) in *.
  rewrite Hflag in Hc.
  assert (Hidle : settleEffect props env s0 = s0).
  { unfold settleEffect, effectDue. rewrite Hd, Hdeps.
    unfold currentDeps. rewrite Hc. fold (depsWhenSet props env).
    by rewrite Deps_eqb_refl. }
  rewrite Hidle, Hcalls, Hd. repeat split.
  destruct (renderRequested s0) as [c p]. simpl in *. by subst.
Qed.

(** Any pass: either it makes no engine call and queues only the
    requests of the effects before the settle effect, or the settle
    effect runs with the flag set: one settle step. *)
Lemma settlePass_cases props env k s :
  let s' := settlePass props env k s in
  (calls s' = calls s /\ pending (renderRequested s') = replicate k true)
  \/ (calls s' = calls s ++ settleCalls props env (camera s)
      /\ settleDeps s' = Some (depsWhenSet props env)).
Proof.
  cbv zeta. unfold settlePass.
  destruct (pass_start k s) as (Hc & Hp & Hd & Hcalls & Hcam).
  set (s0 := Nat.iter k requestRender _) in *.
  unfold settleEffect. destruct (effectDue props env s0); [|left; by split].
  destruct (committed (renderRequested s0)) eqn:Hset.
  - right.
    destruct (settleBody_set props env
                (withSettleDeps (Some (currentDeps props env s0)) s0) Hset)
      as (Hcalls' & _ & _ & Hd').
    simpl in *. rewrite Hcalls', Hd', Hcalls, Hcam.
    unfold currentDeps, depsWhenSet. by rewrite Hset.
  - left. unfold settleBody. simpl. rewrite Hset. simpl. by split.
Qed.

(** *** The camera hook in a pass *)

Lemma cameraEffect_hooked props s :
  cameraEffect props s
  = Nat.iter (cameraRequests props s) requestRender (hooked props s).
Proof.
  unfold cameraEffect, cameraRequests, hooked.
  by destruct (useCamera _ _ _) as [[hook cam] r].
Qed.

Lemma hooked_iter_requestRender props k s :
  hooked props (Nat.iter k requestRender s)
  = Nat.iter k requestRender (hooked props s).
Proof.
  unfold hooked.
  rewrite cameraHook_iter_requestRender, camera_iter_requestRender.
  induction k as [|k IH]; simpl; [done|]. by rewrite <- IH.
Qed.

(** A pass is a pass without the hook, from the state with the hook's
    camera, with the hook's requests among those of the effects. *)
Lemma renderPass_settlePass props env k s :
  renderPass props env k s
  = settlePass props env (cameraRequests props s + k) (hooked props s).
Proof.
  unfold renderPass, settlePass. f_equal.
  rewrite cameraEffect_hooked, hooked_iter_requestRender.
  unfold cameraRequests. rewrite cameraHook_iter_requestRender,
    camera_iter_requestRender. simpl.
  by rewrite Nat.iter_add.
Qed.

Lemma hookSettled_same props s s' :
  hookSettled props s -> cameraHook s' = cameraHook s -> hookSettled props s'.
Proof. unfold hookSettled. by intros H ->. Qed.

Lemma hooked_settled props s : hookSettled props s -> hooked props s = s.
Proof.
  intros H. unfold hooked. rewrite (H (camera s)). simpl. by destruct s.
Qed.

Lemma cameraRequests_settled props s :
  hookSettled props s -> cameraRequests props s = 0.
Proof. intros H. unfold cameraRequests. by rewrite (H (camera s)). Qed.

Lemma renderPass_settled props env k s :
  hookSettled props s -> renderPass props env k s = settlePass props env k s.
Proof.
  intros H. by rewrite renderPass_settlePass, hooked_settled,
    cameraRequests_settled.
Qed.

Lemma nativeRenders_hooked props s : nativeRenders (hooked props s) = nativeRenders s.
Proof. done. Qed.

Lemma flagAtNextPass_hooked props s : flagAtNextPass (hooked props s) = flagAtNextPass s.
Proof. done. Qed.

Lemma effectSawClear_hooked props s : effectSawClear s -> effectSawClear (hooked props s).
Proof. done. Qed.

(** [useCamera]'s effect is gated by the camera props: once it has run
    under some props, it does nothing more for as long as they stay the
    same. *)
Hypothesis useCamera_gated : forall cameraProps hook cam cam',
  useCamera cameraProps (useCamera cameraProps hook cam).1.1 cam'
  = ((useCamera cameraProps hook cam).1.1, cam', 0).

Lemma hookSettled_renderPass props env k s :
  hookSettled props (renderPass props env k s).
Proof.
  intros cam. rewrite renderPass_settlePass, cameraHook_settlePass.
  unfold hooked. simpl. apply useCamera_gated.
Qed.

(** *** Passes of the view alone *)

Lemma flushUpdates_idle fuel props env s :
  pending (renderRequested s) = [] -> flushUpdates fuel props env s = s.
Proof. intros H. destruct fuel; simpl; [done|]. by rewrite H. Qed.

Lemma flushUpdates_step fuel props env s :
  pending (renderRequested s) <> [] ->
  hookSettled props s ->
  flushUpdates (S fuel) props env s
  = flushUpdates fuel props env (settlePass props env 0 s).
Proof.
  intros H Hs. simpl. rewrite renderPass_settled by done.
  by destruct (pending (renderRequested s)).
Qed.

(** Flushing after the settle step rendered: one more pass, which finds
    the flag cleared. *)
Lemma flushUpdates_after_render fuel props env s r :
  1 <= fuel ->
  hookSettled props s ->
  pending (renderRequested s) = r ++ [false] ->
  let s' := flushUpdates fuel props env s in
  calls s' = calls s /\ camera s' = camera s /\ quiescent s'
  /\ cameraHook s' = cameraHook s.
Proof.
  intros Hfuel Hs Hp. cbv zeta.
  destruct fuel as [|fuel]; [lia|].
  rewrite flushUpdates_step by (done || (rewrite Hp; by destruct r)).
  destruct (settlePass_cleared props env 0 s) as (Hc & Hcam & Hcomm & Hpend & Hsaw).
  { unfold flagAtNextPass. by rewrite Hp, last_last. }
  rewrite flushUpdates_idle by done.
  by rewrite cameraHook_settlePass.
Qed.

(** Flushing with the flag set and the dependency list of the last run:
    the effect stays gated. *)
Lemma flushUpdates_gated fuel props env s :
  flagAtNextPass s = true ->
  hookSettled props s ->
  settleDeps s = Some (depsWhenSet props env) ->
  let s' := flushUpdates fuel props env s in
  calls s' = calls s
  /\ settleDeps s' = settleDeps s
  /\ cameraHook s' = cameraHook s
  /\ (1 <= fuel -> renderRequested s' = mkCell true []).
Proof.
  intros Hflag Hs Hdeps. cbv zeta.
  destruct fuel as [|fuel]; [simpl; repeat split; lia|].
  destruct (pending (renderRequested s)) as [|b q] eqn:Hp.
  - rewrite flushUpdates_idle by done. repeat split. intros _.
    unfold flagAtNextPass in Hflag. rewrite Hp in Hflag. simpl in Hflag.
    destruct (renderRequested s) as [c p]. simpl in *. by subst.
  - rewrite flushUpdates_step by (done || by rewrite Hp).
    destruct (settlePass_gated props env 0 s Hflag Hdeps) as (Hc & Hr & Hd).
    rewrite flushUpdates_idle by by rewrite Hr.
    by rewrite Hc, Hr, Hd, cameraHook_settlePass.
Qed.

(** After a settle step ran under these props and surroundings, further
    passes of the view make no engine call, whatever is queued. *)
Lemma flushUpdates_after_settle fuel props env s :
  hookSettled props s ->
  settleDeps s = Some (depsWhenSet props env) ->
  calls (flushUpdates fuel props env s) = calls s.
Proof.
  intros Hs Hdeps. destruct (flagAtNextPass s) eqn:Hflag.
  - by apply flushUpdates_gated.
  - destruct fuel as [|fuel]; [done|].
    destruct (pending (renderRequested s)) as [|b q] eqn:Hp.
    { by rewrite flushUpdates_idle. }
    rewrite flushUpdates_step by (done || by rewrite Hp).
    destruct (settlePass_cleared props env 0 s Hflag) as (Hc & _ & _ & Hpend & _).
    by rewrite flushUpdates_idle.
Qed.

(** The passes of the view alone call [render()] at most once. *)
Lemma flushUpdates_bound fuel props env s :
  hookSettled props s ->
  nativeRenders (flushUpdates fuel props env s) <= nativeRenders s + 1.
Proof.
  intros Hs. destruct fuel as [|fuel]; [simpl; lia|].
  destruct (pending (renderRequested s)) as [|b q] eqn:Hp.
  { rewrite flushUpdates_idle by done. lia. }
  rewrite flushUpdates_step by (done || by rewrite Hp).
  assert (Hs1 : hookSettled props (settlePass props env 0 s)).
  { by apply (hookSettled_same props s), cameraHook_settlePass. }
  destruct (settlePass_cases props env 0 s) as [[Hc Hpend]|[Hc Hd]].
  - rewrite flushUpdates_idle by done. unfold nativeRenders. rewrite Hc. lia.
  - unfold nativeRenders at 1.
    rewrite (flushUpdates_after_settle fuel props env _ Hs1 Hd).
    fold (nativeRenders (settlePass props env 0 s)).
    rewrite (nativeRenders_calls _ _ _ Hc), renders_of_settleCalls. lia.
Qed.

(** A whole update cycle from a state in which the settle effect did not
    last run with the flag set.  A render is wanted when the flag was
    raised before it or an effect before the settle effect asks for one;
    then the engine sees one settle step, otherwise nothing.  Either way
    the view ends quiescent. *)
Lemma updateCycle_spec fuel props env s :
  2 <= fuel ->
  effectSawClear s ->
  let wanted :=
    flagAtNextPass s
    || (0 <? cameraRequests props s + requestsFromEffects env) in
  let s' := updateCycle fuel props env s in
  calls s' = calls s
             ++ (if wanted
                 then settleCalls props env (camera (hooked props s)) else [])
  /\ quiescent s'
  /\ hookSettled props s'.
Proof.
  intros Hfuel Hclear. cbv zeta. unfold updateCycle.
  pose proof (hookSettled_renderPass props env (requestsFromEffects env) s) as Hs1.
  rewrite renderPass_settlePass in *.
  set (k := cameraRequests props s + requestsFromEffects env) in *.
  set (s0 := hooked props s) in *.
  change (calls s) with (calls s0).
  change (flagAtNextPass s) with (flagAtNextPass s0).
  assert (Hclear0 : effectSawClear s0) by done.
  clearbody s0 k. clear s Hclear.
  destruct (flagAtNextPass s0) eqn:Hflag; simpl.
  - destruct (settlePass_raised props env k s0 Hflag Hclear0)
      as (Hc & Hp & _ & _).
    destruct (flushUpdates_after_render fuel props env
                (settlePass props env k s0)
                (replicate k true ++ replicate (requestsDuringRender env) true))
      as (Hc' & _ & Hq & Hh); [lia|done|by rewrite Hp, <- app_assoc|].
    rewrite Hc', Hc. repeat split; try apply Hq.
    by apply (hookSettled_same props (settlePass props env k s0)).
  - destruct (settlePass_cleared props env k s0 Hflag)
      as (Hc & Hcam & Hcomm & Hp & Hsaw).
    set (s1 := settlePass props env k s0) in *.
    destruct k as [|m]; simpl.
    + rewrite flushUpdates_idle by done. rewrite app_nil_r. by repeat split.
    + destruct fuel as [|fuel]; [lia|].
      rewrite flushUpdates_step by (done || by rewrite Hp).
      assert (Hs2 : hookSettled props (settlePass props env 0 s1)).
      { by apply (hookSettled_same props s1), cameraHook_settlePass. }
      destruct (settlePass_raised props env 0 s1) as (Hc2 & Hp2 & _ & _);
        [|done|].
      { unfold flagAtNextPass. rewrite Hp.
        replace (S m) with (m + 1) by lia.
        rewrite replicate_add. simpl. by rewrite last_last. }
      destruct (flushUpdates_after_render fuel props env
                  (settlePass props env 0 s1)
                  (replicate (requestsDuringRender env) true))
        as (Hc3 & _ & Hq & Hh); [lia|done|done|].
      rewrite Hc3, Hc2, Hc, Hcam. repeat split; try apply Hq.
      by apply (hookSettled_same props (settlePass props env 0 s1)).
Qed.

(** *** Histories *)

Lemma effectSawClear_apiCall s c :
  effectSawClear s -> effectSawClear (apiCall s c).
Proof.
  unfold effectSawClear. destruct c as [|props env b]; simpl; [done|].
  by rewrite settleDeps_resetCamera.
Qed.

Lemma effectSawClear_apiCalls cs s :
  effectSawClear s -> effectSawClear (foldl apiCall s cs).
Proof.
  revert s. induction cs as [|c cs IH]; intros s Hs; [done|].
  simpl. by apply IH, effectSawClear_apiCall.
Qed.

Lemma settleDeps_apiCalls cs s : settleDeps (foldl apiCall s cs) = settleDeps s.
Proof.
  revert s. induction cs as [|c cs IH]; intros s; [done|].
  simpl. rewrite IH. destruct c as [|props env b]; simpl; [done|].
  by rewrite settleDeps_resetCamera.
Qed.

Lemma cameraHook_apiCalls cs s : cameraHook (foldl apiCall s cs) = cameraHook s.
Proof.
  revert s. induction cs as [|c cs IH]; intros s; [done|].
  simpl. rewrite IH. destruct c as [|props env b]; simpl; [done|].
  by rewrite cameraHook_resetCamera.
Qed.

Lemma quiescent_initial cam : quiescent (initial cam).
Proof. by repeat split. Qed.

Lemma flagAtNextPass_quiescent s : quiescent s -> flagAtNextPass s = false.
Proof. intros (Hc & Hp & _). unfold flagAtNextPass. by rewrite Hp, Hc. Qed.

Lemma nativeRenders_apiCall s c : nativeRenders (apiCall s c) = nativeRenders s.
Proof.
  destruct c as [|props env b]; simpl; [done|].
  unfold viewResetCamera.
  change (nativeRenders (requestRender ?x)) with (nativeRenders x).
  rewrite (nativeRenders_calls s _ _ (calls_resetCamera props env b s)).
  rewrite filter_isRender_cameraResetCalls. simpl. lia.
Qed.

Lemma nativeRenders_apiCalls cs s :
  nativeRenders (foldl apiCall s cs) = nativeRenders s.
Proof.
  revert s. induction cs as [|c cs IH]; intros s; [done|].
  simpl. by rewrite IH, nativeRenders_apiCall.
Qed.

Lemma flagAtNextPass_apiCall s c : flagAtNextPass (apiCall s c) = true.
Proof.
  destruct c as [|props env b]; unfold flagAtNextPass; simpl;
    by rewrite last_last.
Qed.

Lemma flagAtNextPass_apiCalls cs s :
  flagAtNextPass (foldl apiCall s cs)
  = match cs with [] => flagAtNextPass s | _ :: _ => true end.
Proof.
  revert s. induction cs as [|c cs IH]; intros s; [done|].
  simpl. rewrite IH. destruct cs; [apply flagAtNextPass_apiCall|done].
Qed.

(** A cycle calls [render()] at most once, whatever state it starts
    from and whenever the requests land. *)
Lemma runCycle_bound fuel s c :
  nativeRenders (runCycle fuel s c) <= nativeRenders s + 1.
Proof.
  unfold runCycle.
  set (props := cycleProps c). set (env := cycleEnv c).
  set (s0 := foldl apiCall s (before c)).
  assert (H0 : nativeRenders s0 = nativeRenders s)
    by apply nativeRenders_apiCalls.
  pose proof (hookSettled_renderPass props env (requestsFromEffects env) s0)
    as Hs1.
  rewrite renderPass_settlePass in *.
  set (k := cameraRequests props s0 + requestsFromEffects env) in *.
  set (s1 := settlePass props env k (hooked props s0)) in *.
  set (s2 := foldl apiCall s1 (late c)).
  assert (Hs2 : hookSettled props s2).
  { apply (hookSettled_same props s1); [done|apply cameraHook_apiCalls]. }
  assert (H2 : nativeRenders s2 = nativeRenders s1)
    by apply nativeRenders_apiCalls.
  destruct (settlePass_cases props env k (hooked props s0)) as [[Hc _]|[Hc Hd]];
    fold s1 in Hc.
  - pose proof (flushUpdates_bound fuel props env s2 Hs2) as Hb.
    assert (nativeRenders s1 = nativeRenders s0)
      by (unfold nativeRenders; by rewrite Hc).
    lia.
  - fold s1 in Hd.
    assert (Hd2 : settleDeps s2 = Some (depsWhenSet props env))
      by (unfold s2; by rewrite settleDeps_apiCalls).
    unfold nativeRenders at 1.
    rewrite (flushUpdates_after_settle fuel props env s2 Hs2 Hd2).
    fold (nativeRenders s2).
    rewrite H2, (nativeRenders_calls _ _ _ Hc), renders_of_settleCalls.
    rewrite nativeRenders_hooked. lia.
Qed.

Lemma runCycles_bound fuel history s :
  nativeRenders (foldl (runCycle fuel) s history)
  <= nativeRenders s + length history.
Proof.
  revert s. induction history as [|c history IH]; intros s; simpl; [lia|].
  pose proof (IH (runCycle fuel s c)). pose proof (runCycle_bound fuel s c). lia.
Qed.

(** A cycle without late calls, from a quiescent state. *)
Lemma runCycle_calls fuel s c :
  2 <= fuel -> quiescent s -> noLateCall c = true ->
  quiescent (runCycle fuel s c)
  /\ nativeRenders s + (if cycleWantsRender c then 1 else 0)
     <= nativeRenders (runCycle fuel s c).
Proof.
  intros Hfuel Hq Hlate. unfold runCycle, noLateCall in *.
  destruct (late c); [|done]. simpl.
  fold (updateCycle fuel (cycleProps c) (cycleEnv c) (foldl apiCall s (before c))).
  destruct (updateCycle_spec fuel (cycleProps c) (cycleEnv c)
              (foldl apiCall s (before c)) Hfuel) as (Hc & Hq' & _).
  { apply effectSawClear_apiCalls, Hq. }
  split; [done|].
  rewrite (nativeRenders_calls _ _ _ Hc), nativeRenders_apiCalls.
  rewrite flagAtNextPass_apiCalls, (flagAtNextPass_quiescent s Hq).
  unfold cycleWantsRender.
  destruct (before c); simpl.
  - destruct (requestsFromEffects (cycleEnv c)) as [|m] eqn:Hm; simpl; [lia|].
    replace (0 <? _ + S m) with true
      by (symmetry; apply Nat.ltb_lt; lia).
    rewrite renders_of_settleCalls. lia.
  - rewrite renders_of_settleCalls. lia.
Qed.

Lemma runCycles_served fuel history s :
  2 <= fuel -> quiescent s ->
  forallb noLateCall history = true ->
  quiescent (foldl (runCycle fuel) s history)
  /\ nativeRenders s + length (filter cycleWantsRender history)
     <= nativeRenders (foldl (runCycle fuel) s history).
Proof.
  intros Hfuel. revert s.
  induction history as [|c history IH]; intros s Hq Hall; simpl.
  { split; [done|lia]. }
  simpl in Hall. apply andb_true_iff in Hall as [Hc Hall].
  destruct (runCycle_calls fuel s c Hfuel Hq Hc) as [Hq' Hr].
  destruct (IH (runCycle fuel s c) Hq' Hall) as [Hq'' Hr'].
  split; [done|]. rewrite filter_cons.
  destruct (cycleWantsRender c); simpl in *; lia.
Qed.

(** *** The settle step *)

(** C3.  When the settle effect runs with the flag set and
    [autoResetCamera] on, the engine sees [renderer.resetCamera()], then
    (only if [autoCenterOfRotation] is on and the style has
    [setCenterOfRotation]) the centre of rotation set to the focal point
    the camera has after that reset, then exactly one [render()]; the
    flag clear is queued last. *)
Theorem settle_resets_camera_then_renders props env s :
  committed (renderRequested s) = true ->
  autoResetCameraOf props = true ->
  effectDue props env s = true ->
  let s' := settleEffect props env s in
  calls s'
  = calls s
    ++ RendererResetCamera None
       :: (if autoCenterOfRotationOf props && styleHasCenterOfRotation env
           then [StyleSetCenterOfRotation
                   (getFocalPoint (rendererResetCamera None (camera s)))]
           else [])
    ++ [RenderWindowRender]
  /\ nativeRenders s' = nativeRenders s + 1
  /\ pending (renderRequested s')
     = pending (renderRequested s)
       ++ replicate (requestsDuringRender env) true ++ [false]
  /\ flagAtNextPass s' = false.
Proof.
  intros Hset Hauto Hdue. cbv zeta. unfold settleEffect. rewrite Hdue.
  destruct (settleBody_set props env
              (withSettleDeps (Some (currentDeps props env s)) s) Hset)
    as (Hc & Hp & _ & _).
  simpl in Hc, Hp.
  repeat split.
  - rewrite Hc. unfold settleCalls, cameraResetCalls. by rewrite Hauto.
  - rewrite (nativeRenders_calls s _ _ Hc). by rewrite renders_of_settleCalls.
  - done.
  - unfold flagAtNextPass. by rewrite Hp, !app_assoc, last_last.
Qed.


(** C8.  A view whose props leave [autoResetCamera],
    [autoCenterOfRotation] and [interactive] out runs with all three on. *)
Theorem view_defaults props :
  autoResetCamera props = None ->
  autoCenterOfRotation props = None ->
  interactive props = None ->
  autoResetCameraOf props = true
  /\ autoCenterOfRotationOf props = true
  /\ interactiveOf props = true.
Proof.
  unfold autoResetCameraOf, autoCenterOfRotationOf, interactiveOf.
  by intros -> -> ->.
Qed.

(** *** The scheduler over whole histories *)

(** X1.  Whenever the requests land, the view calls the engine's
    [render()] at most once per update cycle: over any history, also one
    with requests between the settle effect and the next pass, there are
    never more renders than cycles.  In a history without such late
    calls the view is quiescent after every cycle, and every cycle with
    an API call before it or a request from a descendant's effect has
    had its render. *)
Theorem renders_counted_per_cycle fuel history cam :
  nativeRenders (runHistory fuel history cam) <= length history
  /\ (2 <= fuel ->
      forallb noLateCall history = true ->
      quiescent (runHistory fuel history cam)
      /\ length (filter cycleWantsRender history)
         <= nativeRenders (runHistory fuel history cam)).
Proof.
  unfold runHistory. split.
  - apply (runCycles_bound fuel history (initial cam)).
  - intros Hfuel Hall.
    apply (runCycles_served fuel history (initial cam) Hfuel
             (quiescent_initial cam) Hall).
Qed.

(** X2.  An update cycle entered with the flag clear in which no effect
    asks for a render (no descendant's, and not the one of [useCamera])
    makes no engine call from the view, whatever props changed, and
    leaves the flag clear with nothing queued. *)
Theorem idle_cycle_is_silent fuel props env s :
  flagAtNextPass s = false ->
  requestsFromEffects env = 0 ->
  cameraRequests props s = 0 ->
  let s' := updateCycle fuel props env s in
  calls s' = calls s
  /\ renderRequested s' = mkCell false []
  /\ effectSawClear s'.
Proof.
  intros Hflag Hnone Hcam. cbv zeta. unfold updateCycle.
  rewrite renderPass_settlePass, Hnone, Hcam. simpl.
  destruct (settlePass_cleared props env 0 (hooked props s) Hflag)
    as (Hc & _ & Hcomm & Hp & Hsaw).
  rewrite flushUpdates_idle by done.
  split; [done|]. split; [|done].
  destruct (renderRequested (settlePass props env 0 (hooked props s))) as [c p].
  simpl in *. by subst.
Qed.

(** *** A request between the settle effect and the next render pass *)

(** X4.  A [requestRender()] that lands after the settle effect has
    rendered and before React renders the view again (from a timer, or
    from an effect of a component outside the view) is queued behind the
    flag clear.  The next pass then finds the flag still set and the
    effect's dependency list unchanged, so the effect does not run: the
    request is not rendered, the flag stays set, and no later
    [requestRender()] renders either for as long as the props and the
    getters stay the same.  A pass under a different [autoResetCamera]
    makes the effect due again, and it renders.  This is so from every
    state in which the settle effect did not last run with the flag
    set. *)
Theorem late_request_sticks fuel props env n k s :
  2 <= fuel -> 1 <= n -> 1 <= k ->
  effectSawClear s ->
  let rendered :=
    renderPass props env (requestsFromEffects env) (Nat.iter n requestRender s) in
  let stuck := flushUpdates fuel props env (Nat.iter k requestRender rendered) in
  nativeRenders stuck = nativeRenders s + 1
  /\ renderRequested stuck = mkCell true []
  /\ (forall j env',
        getterIdentity env' = getterIdentity env ->
        nativeRenders
          (updateCycle fuel props env' (Nat.iter j requestRender stuck))
        = nativeRenders stuck)
  /\ (forall props',
        autoResetCameraOf props' <> autoResetCameraOf props ->
        nativeRenders (renderPass props' env 0 stuck) = nativeRenders stuck + 1).
Proof.
  intros Hfuel Hn Hk Hclear. cbv zeta.
  assert (Hsaw : effectSawClear (Nat.iter n requestRender s)).
  { unfold effectSawClear. by rewrite settleDeps_iter_requestRender. }
  assert (Hflag : flagAtNextPass (Nat.iter n requestRender s) = true).
  { rewrite flagAtNextPass_iter_requestRender.
    apply orb_true_iff. left. apply Nat.ltb_lt. lia. }
  pose proof (hookSettled_renderPass props env (requestsFromEffects env)
                (Nat.iter n requestRender s)) as Hhook.
  rewrite renderPass_settlePass in *.
  destruct (settlePass_raised props env
              (cameraRequests props (Nat.iter n requestRender s)
               + requestsFromEffects env)
              (hooked props (Nat.iter n requestRender s)) Hflag Hsaw)
    as (Hc & _ & _ & Hdeps).
  change (calls (hooked props (Nat.iter n requestRender s)))
    with (calls (Nat.iter n requestRender s)) in Hc.
  rewrite calls_iter_requestRender in Hc.
  set (rendered := settlePass props env _ _) in *.
  assert (Hlate : flagAtNextPass (Nat.iter k requestRender rendered) = true).
  { rewrite flagAtNextPass_iter_requestRender.
    apply orb_true_iff. left. apply Nat.ltb_lt. lia. }
  assert (Hdlate : settleDeps (Nat.iter k requestRender rendered)
                   = Some (depsWhenSet props env)).
  { by rewrite settleDeps_iter_requestRender. }
  assert (Hhlate : hookSettled props (Nat.iter k requestRender rendered)).
  { apply (hookSettled_same props rendered); [done|].
    apply cameraHook_iter_requestRender. }
  destruct (flushUpdates_gated fuel props env _ Hlate Hhlate Hdlate)
    as (Hcs & Hds & Hhs & Hcell).
  rewrite calls_iter_requestRender in Hcs.
  rewrite settleDeps_iter_requestRender in Hds.
  set (stuck := flushUpdates fuel props env _) in *.
  specialize (Hcell ltac:(lia)).
  assert (Hhstuck : hookSettled props stuck).
  { by apply (hookSettled_same props (Nat.iter k requestRender rendered)). }
  assert (Hrenders : nativeRenders stuck = nativeRenders s + 1).
  { unfold nativeRenders. rewrite Hcs.
    fold (nativeRenders rendered). fold (nativeRenders s).
    unfold nativeRenders. rewrite Hc, filter_app, length_app.
    by rewrite renders_of_settleCalls. }
  split; [done|]. split; [done|]. split.
  - intros j env' Hid. unfold updateCycle.
    assert (Hdeps' : depsWhenSet props env' = depsWhenSet props env).
    { unfold depsWhenSet. by rewrite Hid. }
    assert (Hfj : flagAtNextPass (Nat.iter j requestRender stuck) = true).
    { rewrite flagAtNextPass_iter_requestRender. unfold flagAtNextPass.
      rewrite Hcell. simpl. apply orb_true_r. }
    assert (Hdj : settleDeps (Nat.iter j requestRender stuck)
                  = Some (depsWhenSet props env')).
    { by rewrite settleDeps_iter_requestRender, Hds, Hdeps, Hdeps'. }
    assert (Hhj : hookSettled props (Nat.iter j requestRender stuck)).
    { apply (hookSettled_same props stuck); [done|].
      apply cameraHook_iter_requestRender. }
    rewrite renderPass_settled by done.
    destruct (settlePass_gated props env' (requestsFromEffects env') _ Hfj Hdj)
      as (Hc1 & Hr1 & Hd1).
    destruct (flushUpdates_gated fuel props env'
                (settlePass props env' (requestsFromEffects env')
                   (Nat.iter j requestRender stuck)))
      as (Hc2 & _).
    { unfold flagAtNextPass. rewrite Hr1. simpl.
      destruct (requestsFromEffects env') as [|m]; [done|].
      replace (S m) with (m + 1) by lia.
      rewrite replicate_add. simpl. by rewrite last_last. }
    { apply (hookSettled_same props (Nat.iter j requestRender stuck)); [done|].
      apply cameraHook_settlePass. }
    { by rewrite Hd1. }
    unfold nativeRenders.
    by rewrite Hc2, Hc1, calls_iter_requestRender.
  - intros props' Hdiff. rewrite renderPass_settlePass. unfold settlePass.
    set (k' := cameraRequests props' stuck + 0).
    destruct (pass_start k' (hooked props' stuck))
      as (Hc0 & Hp0 & Hd0 & Hcalls0 & Hcam0).
    set (s0 := Nat.iter k' requestRender _) in *.
    assert (Hflag0 : committed (renderRequested s0) = true).
    { rewrite Hc0. unfold flagAtNextPass. simpl. by rewrite Hcell. }
    assert (Hdue : effectDue props' env s0 = true).
    { unfold effectDue. rewrite Hd0. simpl. rewrite Hds, Hdeps.
      apply negb_true_iff. apply Deps_eqb_flag_or_reset. simpl. by right. }
    unfold settleEffect. rewrite Hdue.
    destruct (settleBody_set props' env
                (withSettleDeps (Some (currentDeps props' env s0)) s0) Hflag0)
      as (Hc' & _).
    change (calls (withSettleDeps (Some (currentDeps props' env s0)) s0))
      with (calls s0) in Hc'.
    rewrite Hcalls0 in Hc'.
    change (calls (hooked props' stuck)) with (calls stuck) in Hc'.
    rewrite (nativeRenders_calls stuck _ _ Hc').
    by rewrite renders_of_settleCalls.
Qed.

End Engine.

Arguments Props : clear implicits.
Arguments NativeCall : clear implicits.
Arguments ViewState : clear implicits.
Arguments ApiCall : clear implicits.
Arguments Cycle : clear implicits.

(** *** A concrete engine for closed examples

    The camera is a counter that every reset advances, and its focal
    point is the counter; bounds carry no information.  The camera props
    are a value for the counter. *)
Definition exGetFocalPoint (cam : nat) : nat := cam.
Definition exResetCamera (_ : option unit) (cam : nat) : nat := S cam.

(** A camera hook that keeps the camera props it last saw: when they are
    new and given, it sets the camera to them and asks for a render. *)
Definition exUseCamera (cameraProps : option nat) (hook : option (option nat))
    (cam : nat) : option (option nat) * nat * nat :=
  if decide (hook = Some cameraProps) then (hook, cam, 0)
  else (Some cameraProps, default cam cameraProps,
        match cameraProps with Some _ => 1 | None => 0 end).

Lemma exUseCamera_gated (cameraProps : option nat) (hook : option (option nat))
    (cam cam' : nat) :
  exUseCamera cameraProps (exUseCamera cameraProps hook cam).1.1 cam'
  = ((exUseCamera cameraProps hook cam).1.1, cam', 0).
Proof.
  unfold exUseCamera. destruct (decide (hook = Some cameraProps)) as [->|Hne].
  - simpl. by rewrite decide_True.
  - simpl. by rewrite decide_True.
Qed.

Definition exState : Type := ViewState unit nat nat (option (option nat)).

Definition exRenderPass (props : Props nat) (env : Env) (fromEffects : nat)
    (s : exState) : exState :=
  renderPass exGetFocalPoint exResetCamera exUseCamera props env fromEffects s.

Definition exUpdateCycle (props : Props nat) (env : Env) (s : exState)
    : exState :=
  updateCycle exGetFocalPoint exResetCamera exUseCamera 2 props env s.

Definition exRunCycle (s : exState) (c : Cycle unit nat) : exState :=
  runCycle exGetFocalPoint exResetCamera exUseCamera 2 s c.

Definition exRunHistory (history : list (Cycle unit nat)) : exState :=
  runHistory exGetFocalPoint exResetCamera exUseCamera None 2 history 0.

(** A style with [setCenterOfRotation], no requests from descendants,
    and [duringRender] requests raised inside [render()]. *)
Definition exEnv (duringRender : nat) : Env := mkEnv true 0 0 duringRender.

(** No configuration at all. *)
Definition exNoProps : Props nat := noProps.

(** The mount of [<View />]. *)
Definition exMount : Cycle unit nat := mkCycle [] exNoProps (exEnv 0) [].

(** A history: the mount, then a cycle in which a descendant's effect
    asked for a render. *)
Definition exHistory : list (Cycle unit nat) :=
  [exMount; mkCycle [] exNoProps (mkEnv true 0 1 0) []].

(** A cycle in which [requestRender()] is called once before the render
    pass and once more after the settle effect, before React renders the
    view again. *)
Definition exLateCycle : Cycle unit nat :=
  mkCycle [CallRequestRender] exNoProps (exEnv 0) [CallRequestRender].

(** C1.  Where the code leaves the claim, on a mounted [<View />].
    (a) [requestRender()] is called once and the engine's [render()]
    calls it once more while it runs: the cycle renders once and ends
    with the flag clear and nothing queued, and the cycle after it
    renders nothing, so the request raised during the render was
    dropped, not deferred.  (b) [requestRender()] is called once before a
    cycle and once more after its settle effect: the cycle renders once
    and ends with the flag set, and then three more [requestRender()]
    calls and a whole update cycle render nothing and leave the flag
    set. *)
Theorem render_requests_dropped :
  let mounted := exRunHistory [exMount] in
  let finished := exUpdateCycle exNoProps (exEnv 1) (requestRender mounted) in
  let next := exUpdateCycle exNoProps (exEnv 1) finished in
  let stuck := exRunCycle mounted exLateCycle in
  let later :=
    exRunCycle stuck
      (mkCycle [CallRequestRender; CallRequestRender; CallRequestRender]
         exNoProps (exEnv 0) []) in
  (nativeRenders finished = 1
   /\ renderRequested finished = mkCell false []
   /\ nativeRenders next = 1)
  /\ (nativeRenders stuck = 1
      /\ renderRequested stuck = mkCell true []
      /\ nativeRenders later = 1
      /\ renderRequested later = mkCell true []).
Proof. vm_compute. by repeat split. Qed.

Lemma settle_resets_camera_then_renders_witness :
  let env := exEnv 0 in
  let s := withRenderRequested (mkCell true []) (exRunHistory exHistory) in
  calls (settleEffect exGetFocalPoint exResetCamera exNoProps env s)
  = calls s
    ++ [RendererResetCamera None; StyleSetCenterOfRotation 2; RenderWindowRender]
  /\ pending (renderRequested
        (settleEffect exGetFocalPoint exResetCamera exNoProps env s)) = [false].
Proof.
  cbv zeta.
  destruct (settle_resets_camera_then_renders exGetFocalPoint exResetCamera
              exNoProps (exEnv 0)
              (withRenderRequested (mkCell true []) (exRunHistory exHistory))
              eq_refl eq_refl eq_refl) as (Hc & _ & Hp & _).
  split; [exact Hc | exact Hp].
Defined.

Lemma effectSawClear_exHistory : effectSawClear (exRunHistory exHistory).
Proof. by vm_compute. Qed.



Lemma view_defaults_witness :
  autoResetCameraOf exNoProps = true
  /\ autoCenterOfRotationOf exNoProps = true
  /\ interactiveOf exNoProps = true.
Proof. apply (view_defaults exNoProps); reflexivity. Defined.

(** The mount, a cycle with a late request, three requests and a cycle,
    and a cycle with a request from a descendant's effect. *)
Definition exHistoryLate : list (Cycle unit nat) :=
  [exMount; exLateCycle;
   mkCycle [CallRequestRender; CallRequestRender; CallRequestRender]
     exNoProps (exEnv 0) [];
   mkCycle [] exNoProps (mkEnv true 0 1 0) []].

Lemma renders_counted_per_cycle_witness :
  nativeRenders (exRunHistory exHistoryLate) <= 4
  /\ quiescent (exRunHistory exHistory)
  /\ 1 <= nativeRenders (exRunHistory exHistory).
Proof.
  split.
  - exact (proj1 (renders_counted_per_cycle exGetFocalPoint exResetCamera
                    exUseCamera None exUseCamera_gated 2 exHistoryLate 0)).
  - exact (proj2 (renders_counted_per_cycle exGetFocalPoint exResetCamera
                    exUseCamera None exUseCamera_gated 2 exHistory 0)
             (le_n 2) eq_refl).
Defined.

(** A cycle caused by switching [autoResetCamera] off and nothing else. *)
Definition exPropsOff : Props nat := mkProps None (Some false) None None.

Lemma idle_cycle_is_silent_witness :
  let s := exRunHistory exHistory in
  calls (exUpdateCycle exPropsOff (exEnv 0) s) = calls s
  /\ renderRequested (exUpdateCycle exPropsOff (exEnv 0) s) = mkCell false []
  /\ effectSawClear (exUpdateCycle exPropsOff (exEnv 0) s).
Proof.
  exact (idle_cycle_is_silent exGetFocalPoint exResetCamera exUseCamera 2
           exPropsOff (exEnv 0) (exRunHistory exHistory)
           eq_refl eq_refl eq_refl).
Defined.

Lemma late_request_sticks_witness :
  let s := exRunHistory exHistory in
  let rendered := exRenderPass exNoProps (exEnv 0) 0 (Nat.iter 1 requestRender s) in
  let stuck :=
    flushUpdates exGetFocalPoint exResetCamera exUseCamera 2 exNoProps (exEnv 0)
      (Nat.iter 1 requestRender rendered) in
  nativeRenders stuck = nativeRenders s + 1
  /\ renderRequested stuck = mkCell true []
  /\ nativeRenders (exUpdateCycle exNoProps (exEnv 0) (Nat.iter 5 requestRender stuck))
     = nativeRenders stuck
  /\ nativeRenders (exRenderPass exPropsOff (exEnv 0) 0 stuck)
     = nativeRenders stuck + 1.
Proof.
  cbv zeta.
  destruct (late_request_sticks exGetFocalPoint exResetCamera exUseCamera
              exUseCamera_gated 2 exNoProps (exEnv 0) 1 1
              (exRunHistory exHistory)
              (le_n 2) (le_n 1) (le_n 1) effectSawClear_exHistory)
    as (Hr & Hcell & Hstuck & Hrecover).
  split; [exact Hr|]. split; [exact Hcell|].
  split; [exact (Hstuck 5 (exEnv 0) eq_refl)|].
  apply (Hrecover exPropsOff). discriminate.
Defined.

(** *** The container's style *)

Section Style.

(** CSS values are opaque; ['relative'] and ['100%'] are the two the
    code writes. *)
Context {CSSValue : Type}.
Variable relative fullSize : CSSValue.

(** [DefaultProps.style]: [{ width: '100%', height: '100%' }] *)
Definition defaultStyle : gmap string CSSValue :=
  <["width" := fullSize]> (<["height" := fullSize]> ∅).

(** [const { style = DefaultProps.style } = props] *)
Definition styleOf (style : option (gmap string CSSValue))
    : gmap string CSSValue :=
  default defaultStyle style.

(** [{ position: 'relative', ...style }]: the keys of [style] come
    later in the literal and win. *)
Definition containerStyle (style : option (gmap string CSSValue))
    : gmap string CSSValue :=
  styleOf style ∪ <["position" := relative]> ∅.

(** X5.  The container is positioned ['relative'] unless the [style]
    prop sets [position] itself.  A [style] prop replaces the default
    style as a whole: apart from [position], the container has exactly
    the keys of the custom style, so the default [width] and [height] of
    ['100%'] are there only when [style] is omitted. *)
Theorem container_style_lookup (style : option (gmap string CSSValue))
    (custom : gmap string CSSValue) (k : string) :
  containerStyle style !! "position"
  = Some (default relative (styleOf style !! "position"))
  /\ (k <> "position" -> containerStyle (Some custom) !! k = custom !! k)
  /\ containerStyle None !! "width" = Some fullSize
  /\ containerStyle None !! "height" = Some fullSize
  /\ (k <> "position" -> k <> "width" -> k <> "height" ->
      containerStyle None !! k = None).
Proof.
  unfold containerStyle. split; [|split; [|split; [|split]]].
  - rewrite lookup_union. destruct (styleOf style !! "position"); [done|].
    by rewrite lookup_insert_eq.
  - intros Hk. rewrite lookup_union. simpl.
    rewrite lookup_insert_ne, lookup_empty by done.
    by destruct (custom !! k).
  - reflexivity.
  - reflexivity.
  - intros Hp Hw Hh. rewrite lookup_union. simpl. unfold defaultStyle.
    by rewrite !lookup_insert_ne, !lookup_empty by done.
Qed.

End Style.

End View.


(** ** Utility hooks

    [useGetterRef], [useBooleanAccumulator], [useComparableEffect] and the
    deletion registry are imported by the files above from [utils/]; their
    definitions here follow the specification's contracts and the shapes
    visible at the call sites. *)

(** Counting how often an action ran: the action paired with a counter. *)
Definition counted {W : Type} (action : W -> W) (cw : nat * W) : nat * W :=
  (S (fst cw), action (snd cw)).

(** *** utils/useGetterRef *)

Module GetterRef.
Section Slot.

Context {Handle World : Type}.

(** The construction recipe: no argument, acts on the world, and yields
    a handle or throws ([None]). *)
Variable factory : World -> option Handle * World.

(** [ref.current]: [null] until a handle was constructed. *)
Definition Ref : Type := option Handle.

(** Modelled from the spec: [useGetterRef] (utils/useGetterRef), the
    Handle Cache of section 4.1, as
    [const [ref, get] = useGetterRef(factory)] uses it.  The slot starts
    empty. *)
Definition useGetterRef : Ref := None.

(** Modelled from the spec: the [get()] accessor of [useGetterRef].  It
    returns the stored handle when there is one; otherwise it invokes the
    factory and stores what it returns, and a factory that throws leaves
    the slot empty so that the next [get()] tries again. *)
Definition get (ref : Ref) (w : World) : option Handle * Ref * World :=
  match ref with
  | Some h => (Some h, Some h, w)
  | None =>
      match factory w with
      | (Some h, w') => (Some h, Some h, w')
      | (None, w') => (None, None, w')
      end
  end.

(** [k] calls in a row, with every result. *)
Fixpoint gets (k : nat) (ref : Ref) (w : World)
    : list (option Handle) * Ref * World :=
  match k with
  | 0 => ([], ref, w)
  | S k =>
      let '(h, ref', w') := get ref w in
      let '(hs, ref'', w'') := gets k ref' w' in
      (h :: hs, ref'', w'')
  end.

Lemma gets_stored k h w :
  gets k (Some h) w = (replicate k (Some h), Some h, w).
Proof. induction k as [|k IH]; simpl; [done|]. by rewrite IH. Qed.

End Slot.

(** The factory with an invocation counter in front of the world. *)
Definition countedFactory {Handle World : Type}
    (factory : World -> option Handle * World)
    (cw : nat * World) : option Handle * (nat * World) :=
  let '(h, w') := factory (snd cw) in (h, (S (fst cw), w')).

(** C5.  When the factory constructs a handle [h], the first [get()] on
    an empty slot invokes it once (the invocation count goes up by one
    and the world is the one the factory left), stores [h] and returns
    it; each of the [k] calls after it returns [h] again and leaves the
    slot, the world and the invocation count as they were. *)
Theorem get_constructs_once {Handle World : Type}
    (factory : World -> option Handle * World) (w w' : World) (h : Handle)
    (n k : nat) :
  factory w = (Some h, w') ->
  get (countedFactory factory) useGetterRef (n, w) = (Some h, Some h, (S n, w'))
  /\ gets (countedFactory factory) (S k) useGetterRef (n, w)
     = (replicate (S k) (Some h), Some h, (S n, w')).
Proof.
  intros Hf.
  assert (Hget : get (countedFactory factory) useGetterRef (n, w)
                 = (Some h, Some h, (S n, w'))).
  { unfold get, useGetterRef, countedFactory; simpl. by rewrite Hf. }
  split; [exact Hget|].
  change (gets (countedFactory factory) (S k) useGetterRef (n, w))
    with (let '(h0, ref', w0) := get (countedFactory factory) useGetterRef (n, w) in
          let '(hs, ref'', w'') := gets (countedFactory factory) k ref' w0 in
          (h0 :: hs, ref'', w'')).
  rewrite Hget, gets_stored. done.
Qed.

(** A factory that hands out consecutive handles. *)
Definition exFactory (next : nat) : option nat * nat := (Some next, S next).

Lemma get_constructs_once_witness :
  get (countedFactory exFactory) useGetterRef (0, 7) = (Some 7, Some 7, (1, 8))
  /\ gets (countedFactory exFactory) 4 useGetterRef (0, 7)
     = ([Some 7; Some 7; Some 7; Some 7], Some 7, (1, 8)).
Proof. apply (get_constructs_once exFactory 7 8 7 0 3). reflexivity. Defined.

End GetterRef.

(** *** utils/useBooleanAccumulator *)

Module BooleanAccumulator.

(** Modelled from the spec: [useBooleanAccumulator]
    (utils/useBooleanAccumulator), the Dirty Accumulator of section 4.2,
    as [const [modifiedRef, trackModified, resetModified] =
    useBooleanAccumulator()] uses it.  The flag starts clear. *)
Definition useBooleanAccumulator : bool := false.

(** Modelled from the spec: [mark(changed)] of the accumulator (the
    call sites' [trackModified]), which ORs [changed] into the flag. *)
Definition mark (changed : bool) (flag : bool) : bool := flag || changed.

(** Modelled from the spec: the reset of the accumulator (the call
    sites' [resetModified]). *)
Definition reset (flag : bool) : bool := false.

(** Modelled from the spec: [consume()] of the accumulator, which reads
    the flag and clears it. *)
Definition consume (flag : bool) : bool * bool := (flag, reset flag).

Definition markAll (changes : list bool) (flag : bool) : bool :=
  foldl (fun f c => mark c f) flag changes.

Lemma markAll_fold changes flag :
  markAll changes flag = flag || existsb id changes.
Proof.
  revert flag. induction changes as [|c cs IH]; intros flag; simpl.
  - by rewrite orb_false_r.
  - unfold markAll in *. simpl. rewrite IH. unfold mark, id.
    by rewrite orb_assoc.
Qed.

Lemma existsb_id_true (changes : list bool) :
  existsb id changes = true <-> true ∈ changes.
Proof.
  rewrite existsb_exists. split.
  - intros (b & Hin & Hb). unfold id in Hb. subst b.
    by apply list_elem_of_In.
  - intros Hin. exists true. split; [by apply list_elem_of_In|done].
Qed.

(** C6.  After any sequence of [mark] calls on a clear flag, consuming
    returns [true] exactly when one of them was [mark(true)], and leaves
    the flag clear: a second consume returns [true] exactly when a
    [mark(true)] came in between. *)
Theorem consume_true_iff_marked (changes later : list bool) :
  let first := consume (markAll changes useBooleanAccumulator) in
  let second := consume (markAll later (snd first)) in
  (fst first = true <-> true ∈ changes)
  /\ snd first = false
  /\ (fst second = true <-> true ∈ later)
  /\ fst (consume (snd first)) = false.
Proof.
  cbv zeta. unfold consume, reset, useBooleanAccumulator; simpl.
  rewrite !markAll_fold; simpl.
  by rewrite !existsb_id_true.
Qed.

End BooleanAccumulator.

(** *** utils/useComparableEffect *)

Module ComparableEffect.
Section Runner.

Context {T World : Type}.

(** Modelled from the spec: [useComparableEffect]
    (utils/useComparableEffect), the Comparable-Effect Runner of section
    4.3, called as [useComparableEffect(callback, deps, compare)] with
    [compare(cur, prev)] as the call sites write it.  The callback runs
    when there is no previous tuple or [compare] rejects the pair; the
    current tuple is stored as the previous one on every invocation. *)
Definition useComparableEffect (callback : World -> World) (deps : T)
    (compare : T -> T -> bool) (prev : option T) (w : World)
    : option T * World :=
  let changed :=
    match prev with
    | None => true
    | Some old => negb (compare deps old)
    end in
  (Some deps, if changed then callback w else w).

End Runner.

(** C4.  On a runner with no previous tuple the callback runs; a second
    invocation whose tuple [compare] accepts against the first does not
    run it again, so it ran exactly once over the two; after each
    invocation the stored tuple is the one just passed. *)
Theorem comparable_effect_runs_once {T World : Type} (callback : World -> World)
    (compare : T -> T -> bool) (first second : T) (n : nat) (w : World) :
  compare second first = true ->
  let r1 := useComparableEffect (counted callback) first compare None (n, w) in
  let r2 := useComparableEffect (counted callback) second compare (fst r1) (snd r1) in
  snd r1 = (S n, callback w)
  /\ fst r1 = Some first
  /\ snd r2 = (S n, callback w)
  /\ fst r2 = Some second.
Proof.
  intros Heq. cbv zeta. unfold useComparableEffect; simpl.
  by rewrite Heq.
Qed.

Lemma comparable_effect_runs_once_witness :
  let compare := fun a b : nat * nat => Nat.eqb (fst a) (fst b) in
  let r1 := useComparableEffect (counted S) (1, 2) compare None (0, 10) in
  let r2 := useComparableEffect (counted S) (1, 3) compare (fst r1) (snd r1) in
  snd r1 = (1, 11) /\ fst r1 = Some (1, 2)
  /\ snd r2 = (1, 11) /\ fst r2 = Some (1, 3).
Proof.
  apply (comparable_effect_runs_once S
           (fun a b : nat * nat => Nat.eqb (fst a) (fst b)) (1, 2) (1, 3) 0 10).
  reflexivity.
Defined.

End ComparableEffect.

(** *** utils/DeletionRegistry *)

(** The handles of a registration sequence in the order each was first
    seen: the order a FIFO queue without duplicates ends up in. *)
Fixpoint firstOccurrences {A : Type} `{EqDecision A} (l : list A) : list A :=
  match l with
  | [] => []
  | x :: l => x :: filter (fun y => y <> x) (firstOccurrences l)
  end.

Module DeletionRegistry.
Section Registry.

Context {Handle : Type} `{Countable Handle} {World : Type}.

(** Modelled from the spec: the state of the Deletion Registry
    (utils/DeletionRegistry, section 4.4): the callbacks given to
    [register(obj, onDelete)], and the queue of pending deletions
    ([{handle, deleteFn}] entries, oldest first). *)
Record Registry : Type := mkRegistry {
  onDelete : gmap Handle (World -> World);
  queue : list (Handle * (World -> World));
}.

Definition empty : Registry := mkRegistry ∅ [].

(** Modelled from the spec: [deletionRegistry.register(obj, onDelete)]
    (utils/DeletionRegistry), which records the handle's deletion
    callback. *)
Definition register (h : Handle) (cb : World -> World) (r : Registry) : Registry :=
  mkRegistry (<[h := cb]> (onDelete r)) (queue r).

Definition queued (h : Handle) (r : Registry) : bool :=
  bool_decide (h ∈ (queue r).*1).

(** Modelled from the spec: [deletionRegistry.markForDeletion(obj)]
    (utils/DeletionRegistry; the spec's [registerForDeletion(handle)]).
    It enqueues the handle's deletion callback unless the handle is
    already enqueued; a handle with no recorded callback has nothing to
    enqueue. *)
Definition markForDeletion (h : Handle) (r : Registry) : Registry :=
  if queued h r then r
  else match onDelete r !! h with
       | Some cb => mkRegistry (onDelete r) (queue r ++ [(h, cb)])
       | None => r
       end.

(** Modelled from the spec: [cancel(handle)] of the Deletion Registry,
    which takes a handle out of the queue. *)
Definition cancel (h : Handle) (r : Registry) : Registry :=
  mkRegistry (onDelete r) (filter (fun e => e.1 <> h) (queue r)).

(** Modelled from the spec: [flush()] of the Deletion Registry, which
    runs every queued callback, oldest first, and clears the queue. *)
Definition flush (r : Registry) (w : World) : Registry * World :=
  (mkRegistry (onDelete r) [], foldl (fun w e => e.2 w) w (queue r)).

Definition markAllForDeletion (hs : list Handle) (r : Registry) : Registry :=
  foldl (fun r h => markForDeletion h r) r hs.

(** The queue discipline on bare handles. *)
Definition enqueue (h : Handle) (q : list Handle) : list Handle :=
  if bool_decide (h ∈ q) then q else q ++ [h].

Lemma elem_of_firstOccurrences (hs : list Handle) (h : Handle) :
  h ∈ firstOccurrences hs <-> h ∈ hs.
Proof.
  induction hs as [|x hs IH]; simpl; [done|].
  rewrite !elem_of_cons, list_elem_of_filter, IH.
  destruct (decide (h = x)); tauto.
Qed.

Lemma NoDup_firstOccurrences (hs : list Handle) : NoDup (firstOccurrences hs).
Proof.
  induction hs as [|x hs IH]; simpl; [constructor|].
  constructor.
  - rewrite list_elem_of_filter. tauto.
  - by apply NoDup_filter.
Qed.

Lemma foldl_enqueue (hs q : list Handle) :
  foldl (fun q h => enqueue h q) q hs
  = q ++ filter (fun h => h ∉ q) (firstOccurrences hs).
Proof.
  revert q. induction hs as [|x hs IH]; intros q; simpl.
  - by rewrite app_nil_r.
  - rewrite IH. unfold enqueue. case_bool_decide as Hin.
    + rewrite filter_cons_False by tauto. f_equal.
      rewrite list_filter_filter. apply list_filter_iff.
      intros h. split; [|tauto].
      intros Hh. split; [done|]. by intros ->.
    + rewrite filter_cons_True by done.
      rewrite <- app_assoc. simpl. do 2 f_equal.
      rewrite list_filter_filter. apply list_filter_iff.
      intros h. rewrite elem_of_app, list_elem_of_singleton. tauto.
Qed.

Section Callbacks.

(** Every handle's recorded callback is [del] of that handle. *)
Variable del : Handle -> World -> World.

Definition entry (h : Handle) : Handle * (World -> World) := (h, del h).

Lemma fst_entries (q : list Handle) : (entry <$> q).*1 = q.
Proof.
  induction q as [|x q IH]; [done|]. rewrite !fmap_cons. by rewrite IH.
Qed.

Lemma markAllForDeletion_entries (hs q : list Handle) (r : Registry) :
  queue r = entry <$> q ->
  (forall h, h ∈ hs -> onDelete r !! h = Some (del h)) ->
  onDelete (markAllForDeletion hs r) = onDelete r
  /\ queue (markAllForDeletion hs r)
     = entry <$> foldl (fun q h => enqueue h q) q hs.
Proof.
  revert q r. induction hs as [|x hs IH]; intros q r Hq Hreg; simpl; [done|].
  assert (Hx : onDelete r !! x = Some (del x)) by (apply Hreg; left).
  assert (Hstep : onDelete (markForDeletion x r) = onDelete r
                  /\ queue (markForDeletion x r) = entry <$> enqueue x q).
  { unfold markForDeletion, queued, enqueue.
    rewrite Hq, fst_entries.
    case_bool_decide; [done|].
    rewrite Hx; simpl. by rewrite fmap_app. }
  destruct Hstep as [Hd Hq'].
  destruct (IH (enqueue x q) (markForDeletion x r) Hq') as [IHd IHq].
  { intros h Hh. rewrite Hd. apply Hreg. by right. }
  unfold markAllForDeletion in *. simpl. by rewrite IHd, IHq, Hd.
Qed.

Lemma foldl_entries (q : list Handle) (w : World) :
  foldl (fun w e => e.2 w) w (entry <$> q) = foldl (fun w h => del h w) w q.
Proof. revert w. induction q as [|x q IH]; intros w; simpl; [done|]. apply IH. Qed.

End Callbacks.

(** C7.  Starting from an empty queue, with every handle's callback
    [del h] on record, marking the handles [hs] for deletion (in that
    order, repeats allowed) and flushing runs the callbacks of
    [firstOccurrences hs] oldest first and leaves the queue empty.  That
    list has every handle of [hs], each once; for [h1, h2, h1] it is
    [h1, h2]. *)
Theorem flush_deletes_fifo_once (del : Handle -> World -> World)
    (hs : list Handle) (r : Registry) (w : World) :
  queue r = [] ->
  (forall h, h ∈ hs -> onDelete r !! h = Some (del h)) ->
  let marked := markAllForDeletion hs r in
  (queue marked).*1 = firstOccurrences hs
  /\ snd (flush marked w) = foldl (fun w h => del h w) w (firstOccurrences hs)
  /\ queue (fst (flush marked w)) = []
  /\ NoDup (firstOccurrences hs)
  /\ (forall h, h ∈ firstOccurrences hs <-> h ∈ hs)
  /\ (forall h1 h2 : Handle,
       h1 <> h2 -> firstOccurrences [h1; h2; h1] = [h1; h2]).
Proof.
  intros Hq Hreg. cbv zeta.
  destruct (markAllForDeletion_entries del hs [] r Hq Hreg) as [_ Hqueue].
  rewrite foldl_enqueue in Hqueue.
  assert (Hall : filter (fun h : Handle => h ∉ []) (firstOccurrences hs)
                 = firstOccurrences hs).
  { clear. induction (firstOccurrences hs) as [|x l IH]; [done|].
    rewrite filter_cons_True by apply not_elem_of_nil. by rewrite IH. }
  rewrite Hall, app_nil_l in Hqueue.
  repeat split.
  - by rewrite Hqueue, fst_entries.
  - unfold flush; simpl. by rewrite Hqueue, foldl_entries.
  - apply NoDup_firstOccurrences.
  - by apply elem_of_firstOccurrences.
  - by apply elem_of_firstOccurrences.
  - intros h1 h2 Hne. simpl.
    rewrite filter_nil.
    rewrite (filter_cons_True _ h2) by congruence.
    rewrite (filter_cons_True _ h1) by congruence.
    rewrite filter_nil.
    by rewrite filter_cons_False by (intros Hh; by apply Hh).
Qed.

End Registry.

Arguments Registry Handle {_ _} World.

(** Handles [1] and [2] with a deletion log as the world. *)
Definition exDelete (h : nat) (log : list nat) : list nat := log ++ [h].

Definition exRegistry : Registry nat (list nat) :=
  register 2 (exDelete 2) (register 1 (exDelete 1) empty).

Lemma flush_deletes_fifo_once_witness :
  snd (flush (markAllForDeletion [1; 2; 1] exRegistry) []) = [1; 2]
  /\ queue (fst (flush (markAllForDeletion [1; 2; 1] exRegistry) [])) = [].
Proof.
  assert (Hreg : forall h, h ∈ [1; 2; 1] ->
                 onDelete exRegistry !! h = Some (exDelete h)).
  { intros h Hh. unfold exRegistry, register, empty; simpl.
    apply elem_of_cons in Hh as [->|Hh]; [by vm_compute|].
    apply elem_of_cons in Hh as [->|Hh]; [by vm_compute|].
    apply elem_of_cons in Hh as [->|Hh]; [by vm_compute|].
    by apply elem_of_nil in Hh. }
  destruct (flush_deletes_fifo_once exDelete [1; 2; 1] exRegistry []
              eq_refl Hreg) as (_ & Hlog & Hempty & _).
  split; [exact Hlog | exact Hempty].
Defined.

End DeletionRegistry.

(** ** core/modules/useColorTransferFunction.ts *)

Module ColorTransferFunction.
Import BooleanAccumulator.

(** vtk.js [Vector2]: two numbers.  The code never computes with them,
    it only passes them on; the literals it writes are [0] and [1]. *)
Definition Vector2 : Type := (Q * Q)%type.

(** [IColorMapPreset]: only [Name] is read here. *)
Record IColorMapPreset : Type := mkPreset { Name : string }.

(** [colorMapPreset: string | IColorMapPreset] *)
Inductive ColorMapPreset : Type :=
  | PresetName (name : string)
  | PresetObject (preset : IColorMapPreset).

(** Calls on the engine's colour transfer functions, by handle; the last
    but one is the actor property taking a transfer function. *)
Inductive NativeCall : Type :=
  | NewInstance (h : nat)
  | ApplyColorMap (h : nat) (preset : option IColorMapPreset)
  | SetMappingRange (h : nat) (min max : Q)
  | UpdateRange (h : nat)
  | SetRGBTransferFunction (index : nat) (h : nat)
  | Delete (h : nat).

Record Engine : Type := mkEngine {
  nextHandle : nat;
  calls : list NativeCall;
}.

Definition native (c : NativeCall) (e : Engine) : Engine :=
  mkEngine (nextHandle e) (calls e ++ [c]).

(** [vtkColorTransferFunction.newInstance()] *)
Definition newInstance (e : Engine) : nat * Engine :=
  (nextHandle e, mkEngine (S (nextHandle e)) (calls e ++ [NewInstance (nextHandle e)])).

(** What the hook reads and writes: its getter ref, the engine, the
    deletion registry, and the accumulator behind [trackModified].
    [thrown] records that a call threw and nothing caught it. *)
Record World : Type := mkWorld {
  lutRef : GetterRef.Ref (Handle := nat);
  engine : Engine;
  registry : DeletionRegistry.Registry nat Engine;
  modified : bool;
  thrown : bool;
}.

(** The mapping range a transfer function was last given, if any. *)
Definition mappingRange (h : nat) (cs : list NativeCall) : option Vector2 :=
  foldl (fun acc c =>
           match c with
           | SetMappingRange h' lo hi => if Nat.eqb h h' then Some (lo, hi) else acc
           | _ => acc
           end) None cs.

Section Hook.

(** [vtkColorMaps.getPresetByName] and [compareVector2] live outside
    this file. *)
Variable getPresetByName : string -> option IColorMapPreset.
Variable compareVector2 : Vector2 -> Vector2 -> bool.

(** The factory given to [useGetterRef]:
    [func = newInstance(); deletionRegistry.register(func, () => func.delete()); return func] *)
Definition lutFactory (ew : Engine * DeletionRegistry.Registry nat Engine)
    : option nat * (Engine * DeletionRegistry.Registry nat Engine) :=
  let '(func, e) := newInstance (fst ew) in
  (Some func, (e, DeletionRegistry.register func (native (Delete func)) (snd ew))).

(** [getLUT()] on the hook's world. *)
Definition getLUT (w : World) : option nat * World :=
  let '(h, ref, (e, reg)) :=
    GetterRef.get lutFactory (lutRef w) (engine w, registry w) in
  (h, mkWorld ref e reg (modified w) (thrown w)).

(** [isPassedInPresetName ? colorMapPreset : colorMapPreset.Name] *)
Definition presetNameOf (colorMapPreset : ColorMapPreset) : string :=
  match colorMapPreset with
  | PresetName name => name
  | PresetObject preset => Name preset
  end.

(** The callback of the comparable effect.  [!presetName] holds for the
    empty string; [!range] never holds for a [Vector2].  The preset is
    looked up by name when a name was passed in.  For a name the table
    does not have, the lookup gives [undefined] and
    [lut.applyColorMap(undefined)] throws (it reads a field of its
    argument): the callback ends there, with no range set and nothing
    marked.  With a preset, the range is set and [trackModified(true)]
    marks the accumulator. *)
Definition applyPreset (colorMapPreset : ColorMapPreset) (range : Vector2)
    (w : World) : World :=
  if String.eqb (presetNameOf colorMapPreset) "" then w
  else
    match getLUT w with
    | (None, w) => w
    | (Some lut, w) =>
        let preset :=
          match colorMapPreset with
          | PresetName name => getPresetByName name
          | PresetObject preset => Some preset
          end in
        let e := native (ApplyColorMap lut preset) (engine w) in
        match preset with
        | None => mkWorld (lutRef w) e (registry w) (modified w) true
        | Some _ =>
            let e := native (SetMappingRange lut (fst range) (snd range)) e in
            let e := native (UpdateRange lut) e in
            mkWorld (lutRef w) e (registry w) (mark true (modified w)) (thrown w)
        end
    end.

(** [([curPreset, curRange], [oldPreset, oldRange]) =>
      curPreset === oldPreset && compareVector2(curRange, oldRange)] *)
Definition compareDeps (cur old : string * Vector2) : bool :=
  String.eqb (fst cur) (fst old) && compareVector2 (snd cur) (snd old).

(** One pass of the hook: the comparable effect over
    [[presetName, range]]. *)
Definition useColorTransferFunction (colorMapPreset : ColorMapPreset)
    (range : Vector2) (prev : option (string * Vector2)) (w : World)
    : option (string * Vector2) * World :=
  ComparableEffect.useComparableEffect (applyPreset colorMapPreset range)
    (presetNameOf colorMapPreset, range) compareDeps prev w.

(** The [useUnmount] callback. *)
Definition unmount (w : World) : World :=
  match lutRef w with
  | Some lut =>
      mkWorld None (engine w)
        (DeletionRegistry.markForDeletion lut (registry w)) (modified w)
        (thrown w)
  | None => w
  end.

(** [getLUT()] constructs once: a second call returns the same handle
    and changes nothing. *)
Lemma getLUT_stable w lut w' :
  getLUT w = (Some lut, w') -> getLUT w' = (Some lut, w').
Proof.
  unfold getLUT, GetterRef.get. destruct w as [[h|] e reg m t]; simpl.
  - by intros [= <- <-].
  - by intros [= <- <-].
Qed.

(** Unmounting queues the transfer function's deletion, and the flush
    that follows deletes it in the engine. *)
Lemma unmount_then_flush_deletes w lut :
  lutRef w = Some lut ->
  DeletionRegistry.onDelete (registry w) !! lut = Some (native (Delete lut)) ->
  DeletionRegistry.queue (registry w) = [] ->
  let w' := unmount w in
  lutRef w' = None
  /\ calls (snd (DeletionRegistry.flush (registry w') (engine w')))
     = calls (engine w) ++ [Delete lut].
Proof.
  intros Href Hcb Hq. cbv zeta. unfold unmount. rewrite Href. simpl.
  split; [done|].
  unfold DeletionRegistry.flush, DeletionRegistry.markForDeletion,
    DeletionRegistry.queued.
  rewrite Hq. simpl. rewrite Hcb. done.
Qed.

End Hook.

Definition initial : World :=
  mkWorld GetterRef.useGetterRef (mkEngine 0 []) DeletionRegistry.empty
    useBooleanAccumulator false.

End ColorTransferFunction.

(** ** core/SliceRepresentation.tsx *)

Module SliceRepresentation.
Import React BooleanAccumulator ColorTransferFunction.

(** [colorDataRange?: 'auto' | Vector2] *)
Inductive ColorDataRange : Type :=
  | Auto
  | Range (v : Vector2).

Module DefaultProps.
Definition colorMapPreset : string := "Grayscale".
Definition colorDataRange : ColorDataRange := Auto.
End DefaultProps.

(** [actor?: IImageSliceInitialValues]: only [visibility] matters here. *)
Record ActorProps : Type := mkActorProps { visibility : option bool }.

Record Props : Type := mkProps {
  actor : option ActorProps;
  colorMapPreset : option string;
  colorDataRange : option ColorDataRange;
}.

(** [props.colorDataRange ?? DefaultProps.colorDataRange] *)
Definition rangeFromProps (props : Props) : ColorDataRange :=
  default DefaultProps.colorDataRange (colorDataRange props).

(** [rangeFromProps === 'auto' ? [0, 1] : rangeFromProps] *)
Definition colorDataRangeOf (props : Props) : Vector2 :=
  match rangeFromProps props with
  | Auto => (0, 1)%Q
  | Range v => v
  end.

(** [props.colorMapPreset ?? DefaultProps.colorMapPreset] *)
Definition colorMapPresetOf (props : Props) : string :=
  default DefaultProps.colorMapPreset (colorMapPreset props).

(** [props.actor?.visibility ?? true] *)
Definition declaredVisibility (props : Props) : bool :=
  default true (actor props ≫= visibility).

(** The component's state between passes.  [actorVisibility] is the
    [visibility] of the [actorProps] last handed to [useProp] (which sets
    them on the actor); [inputData] is the scalar range of whatever data
    the mapper was given; [renderRequests] counts the
    [renderer.requestRender()] calls made. *)
Record State : Type := mkState {
  dataAvailable : StateCell bool;          (* useState(false) *)
  lutDeps : option (string * Vector2);
  world : World;
  lutAttached : bool;
  actorVisibility : option bool;
  inputData : option Vector2;
  renderRequests : nat;
}.

Definition initial : State :=
  mkState (useState false) None ColorTransferFunction.initial false None None 0.

Section Component.

Variable getPresetByName : string -> option IColorMapPreset.
Variable compareVector2 : Vector2 -> Vector2 -> bool.

(** The effect over [[getActor, getLookupTable]] (stable getters, so it
    runs on mount):
    [getActor().getProperty().setRGBTransferFunction(0, getLookupTable())]
    (the interpolation call after it is not logged). *)
Definition attachLookupTable (attached : bool) (w : World) : World :=
  if attached then w
  else
    match getLUT w with
    | (Some lut, w) =>
        mkWorld (lutRef w) (native (SetRGBTransferFunction 0 lut) (engine w))
          (registry w) (modified w) (thrown w)
    | (None, w) => w
    end.

(** The effect without dependencies:
    [if (modifiedRef.current) { renderer.requestRender(); resetModified(); }] *)
Definition consumeModified (requests : nat) (w : World) : nat * World :=
  if modified w
  then (S requests,
        mkWorld (lutRef w) (engine w) (registry w) (reset (modified w)) (thrown w))
  else (requests, w).

(** One render pass, as far as the state above is concerned: the
    [dataAvailable] queue is folded and the actor props are computed;
    then the effects run in the order the component declares them.  An
    effect that throws ends the effects of the pass, and React takes a
    component whose effect threw out of the tree, so a world marked
    [thrown] sees no effect again. *)
Definition renderPass (props : Props) (s : State) : State :=
  let cell := processUpdates (dataAvailable s) in
  let visible := committed cell && declaredVisibility props in
  if thrown (world s) then
    mkState cell (lutDeps s) (world s) (lutAttached s) (Some visible)
      (inputData s) (renderRequests s)
  else
    let '(deps, w) :=
      useColorTransferFunction getPresetByName compareVector2
        (PresetName (colorMapPresetOf props)) (colorDataRangeOf props)
        (lutDeps s) (world s) in
    if thrown w then
      mkState cell deps w (lutAttached s) (Some visible) (inputData s)
        (renderRequests s)
    else
      let w := attachLookupTable (lutAttached s) w in
      let '(requests, w) := consumeModified (renderRequests s) w in
      mkState cell deps w true (Some visible) (inputData s) requests.

(** [representation.dataChanged()]: listeners are told, a render is
    requested. *)
Definition dataChanged (s : State) : State :=
  mkState (dataAvailable s) (lutDeps s) (world s) (lutAttached s)
    (actorVisibility s) (inputData s) (S (renderRequests s)).

(** [representation.dataAvailable(available = true)]:
    [setDataAvailable(available); representation.dataChanged();] *)
Definition reportDataAvailable (available : option bool) (s : State) : State :=
  dataChanged
    (mkState (setState (default true available) (dataAvailable s)) (lutDeps s)
       (world s) (lutAttached s) (actorVisibility s) (inputData s)
       (renderRequests s)).

(** [downstream.setInputData(...)]: the mapper gets data with some scalar
    range. *)
Definition setInputData (scalarRange : Vector2) (s : State) : State :=
  mkState (dataAvailable s) (lutDeps s) (world s) (lutAttached s)
    (actorVisibility s) (Some scalarRange) (renderRequests s).

(** What can happen to a mounted representation. *)
Inductive Step : Type :=
  | DataAvailable (available : option bool)
  | SetInputData (scalarRange : Vector2)
  | Render (props : Props).

Definition step (s : State) (st : Step) : State :=
  match st with
  | DataAvailable available => reportDataAvailable available s
  | SetInputData scalarRange => setInputData scalarRange s
  | Render props => renderPass props s
  end.

Definition run (steps : list Step) (s : State) : State := foldl step s steps.

(** The availability last reported in a history, [false] if none was. *)
Definition latestReport (steps : list Step) : bool :=
  foldl (fun acc st =>
           match st with
           | DataAvailable available => default true available
           | _ => acc
           end) false steps.

Definition reportsTrue (st : Step) : bool :=
  match st with
  | DataAvailable available => default true available
  | _ => false
  end.

(** The consuming effect asks for one render exactly when the
    accumulator is set, and leaves it clear. *)
Lemma consumeModified_spec requests w :
  fst (consumeModified requests w)
  = requests + (if fst (consume (modified w)) then 1 else 0)
  /\ modified (snd (consumeModified requests w)) = false.
Proof.
  unfold consumeModified, consume. destruct (modified w) eqn:E; simpl.
  - split; [lia|done].
  - split; [lia|done].
Qed.

(** *** Passes and throws *)

(** The world the colour-map effect of a pass leaves. *)
Definition afterPreset (props : Props) (s : State) : World :=
  snd (useColorTransferFunction getPresetByName compareVector2
         (PresetName (colorMapPresetOf props)) (colorDataRangeOf props)
         (lutDeps s) (world s)).

(** A pass on a component whose effect threw earlier runs no effect. *)
Lemma renderPass_thrown props s :
  thrown (world s) = true ->
  world (renderPass props s) = world s
  /\ renderRequests (renderPass props s) = renderRequests s
  /\ lutDeps (renderPass props s) = lutDeps s
  /\ lutAttached (renderPass props s) = lutAttached s.
Proof. intros Ht. unfold renderPass. by rewrite Ht. Qed.

(** A pass whose colour-map effect throws stops there. *)
Lemma renderPass_throws props s :
  thrown (world s) = false ->
  thrown (afterPreset props s) = true ->
  world (renderPass props s) = afterPreset props s
  /\ renderRequests (renderPass props s) = renderRequests s
  /\ lutAttached (renderPass props s) = lutAttached s.
Proof.
  intros Ht Ha. unfold renderPass, afterPreset in *. rewrite Ht.
  destruct (useColorTransferFunction _ _ _ _ _ _) as [deps w].
  simpl in Ha. by rewrite Ha.
Qed.

(** A pass in which nothing throws runs the three effects. *)
Lemma renderPass_runs props s :
  thrown (world s) = false ->
  thrown (afterPreset props s) = false ->
  let attached := attachLookupTable (lutAttached s) (afterPreset props s) in
  world (renderPass props s) = snd (consumeModified (renderRequests s) attached)
  /\ renderRequests (renderPass props s)
     = fst (consumeModified (renderRequests s) attached)
  /\ lutAttached (renderPass props s) = true.
Proof.
  intros Ht Ha. cbv zeta. unfold renderPass, afterPreset in *. rewrite Ht.
  destruct (useColorTransferFunction _ _ _ _ _ _) as [deps w].
  simpl in *. rewrite Ha. by destruct (consumeModified _ _).
Qed.

Lemma lutDeps_renderPass props s :
  thrown (world s) = false ->
  lutDeps (renderPass props s)
  = Some (colorMapPresetOf props, colorDataRangeOf props).
Proof.
  intros Ht. unfold renderPass. rewrite Ht.
  unfold useColorTransferFunction, ComparableEffect.useComparableEffect.
  match goal with |- context [thrown ?w] => destruct (thrown w) end; [done|].
  by destruct (consumeModified _ _).
Qed.

Lemma thrown_getLUT w : thrown (snd (getLUT w)) = thrown w.
Proof.
  unfold getLUT, GetterRef.get. by destruct (lutRef w).
Qed.

Lemma thrown_attachLookupTable attached w :
  thrown (attachLookupTable attached w) = thrown w.
Proof.
  unfold attachLookupTable. destruct attached; [done|].
  pose proof (thrown_getLUT w) as H.
  by destruct (getLUT w) as [[lut|] w1].
Qed.

Lemma thrown_consumeModified requests w :
  thrown (snd (consumeModified requests w)) = thrown w.
Proof. unfold consumeModified. by destruct (modified w). Qed.

(** The colour-map callback throws exactly when it gets as far as the
    lookup and the table does not have the name. *)
Lemma thrown_applyPreset name r w :
  thrown w = false ->
  thrown (applyPreset getPresetByName (PresetName name) r w)
  = negb (String.eqb name "")
    && match getPresetByName name with Some _ => false | None => true end.
Proof.
  intros Ht. unfold applyPreset. simpl.
  destruct (String.eqb name ""); [done|]. simpl.
  pose proof (thrown_getLUT w) as H.
  destruct (getLUT w) as [[lut|] w1] eqn:E; simpl in *.
  - destruct (getPresetByName name); simpl; [congruence|done].
  - unfold getLUT, GetterRef.get in E. by destruct (lutRef w).
Qed.

(** The preset of the props can be applied: the name is empty (the
    effect returns at once) or the table has it. *)
Definition presetFound (props : Props) : Prop :=
  colorMapPresetOf props = EmptyString
  \/ getPresetByName (colorMapPresetOf props) <> None.

Lemma thrown_afterPreset props s :
  thrown (world s) = false ->
  presetFound props ->
  thrown (afterPreset props s) = false.
Proof.
  intros Ht Hfound. unfold afterPreset, useColorTransferFunction,
    ComparableEffect.useComparableEffect. simpl.
  destruct (match lutDeps s with Some _ => _ | None => _ end); [|done].
  rewrite thrown_applyPreset by done.
  destruct Hfound as [-> | Hsome]; [done|].
  destruct (getPresetByName _); [|done]. apply andb_false_r.
Qed.

Lemma thrown_renderPass props s :
  thrown (world s) = false ->
  presetFound props ->
  thrown (world (renderPass props s)) = false.
Proof.
  intros Ht Hfound.
  pose proof (thrown_afterPreset props s Ht Hfound) as Ha.
  destruct (renderPass_runs props s Ht Ha) as (-> & _).
  by rewrite thrown_consumeModified, thrown_attachLookupTable.
Qed.

(** A throw is never undone. *)
Lemma thrown_step s st : thrown (world s) = true -> thrown (world (step s st)) = true.
Proof.
  intros Ht. destruct st as [a|r|props]; simpl; [done|done|].
  by rewrite (proj1 (renderPass_thrown props s Ht)).
Qed.

(** *** The visibility rule *)

(** The availability a pass will see: the last queued report, or the
    committed one. *)
Definition reported (s : State) : bool :=
  List.last (pending (dataAvailable s)) (committed (dataAvailable s)).

Lemma dataAvailable_renderPass props s :
  dataAvailable (renderPass props s) = processUpdates (dataAvailable s).
Proof.
  unfold renderPass. destruct (thrown (world s)); [done|].
  destruct (useColorTransferFunction _ _ _ _ _ _) as [deps w].
  destruct (thrown w); [done|].
  by destruct (consumeModified _ _).
Qed.

Lemma actorVisibility_renderPass props s :
  actorVisibility (renderPass props s)
  = Some (reported s && declaredVisibility props).
Proof.
  unfold renderPass. destruct (thrown (world s)); [done|].
  destruct (useColorTransferFunction _ _ _ _ _ _) as [deps w].
  destruct (thrown w); [done|].
  by destruct (consumeModified _ _).
Qed.

Lemma reported_step s st :
  reported (step s st)
  = match st with
    | DataAvailable available => default true available
    | _ => reported s
    end.
Proof.
  destruct st as [available|scalarRange|props]; simpl.
  - unfold reported; simpl. by rewrite last_last.
  - done.
  - unfold reported. by rewrite dataAvailable_renderPass.
Qed.

Lemma reported_run steps s :
  reported (run steps s)
  = foldl (fun acc st =>
             match st with
             | DataAvailable available => default true available
             | _ => acc
             end) (reported s) steps.
Proof.
  revert s. induction steps as [|st steps IH]; intros s; [done|].
  unfold run in *. simpl. rewrite IH, reported_step. by destruct st.
Qed.

Lemma latest_none acc steps :
  acc = false ->
  forallb (fun st => negb (reportsTrue st)) steps = true ->
  foldl (fun acc st =>
           match st with
           | DataAvailable available => default true available
           | _ => acc
           end) acc steps = false.
Proof.
  revert acc. induction steps as [|st steps IH]; intros acc Hacc Hall; [done|].
  simpl in *. apply andb_true_iff in Hall as [Hst Hall].
  apply IH; [|done].
  destruct st as [available| |]; simpl in *; [|done|done].
  by destruct (default true available).
Qed.

(** C2 (amended).  The visibility handed to the actor at a render pass is
    the availability last reported (none yet counts as [false]) AND the
    declared visibility (default [true]).  So it is [false] as long as no
    report was [true], whatever is declared, and it is the declared
    setting whenever the latest report is [true]; a later [false] report
    hides the actor again. *)
Theorem visibility_follows_latest_report steps props :
  let shown := actorVisibility (renderPass props (run steps initial)) in
  shown = Some (latestReport steps && declaredVisibility props)
  /\ (forallb (fun st => negb (reportsTrue st)) steps = true ->
      shown = Some false)
  /\ (latestReport steps = true -> shown = Some (declaredVisibility props))
  /\ (latestReport steps = false -> shown = Some false).
Proof.
  cbv zeta. rewrite actorVisibility_renderPass, reported_run.
  change (reported initial) with false. fold (latestReport steps).
  repeat split.
  - intros Hnone. unfold latestReport. by rewrite latest_none.
  - by intros ->.
  - by intros ->.
Qed.

(** *** The colour range *)

(** [compareVector2] accepts only equal vectors. *)
Hypothesis compareVector2_sound :
  forall a b : Vector2, compareVector2 a b = true -> a = b.

Lemma mappingRange_snoc h cs c :
  mappingRange h (cs ++ [c])
  = match c with
    | SetMappingRange h' lo hi =>
        if Nat.eqb h h' then Some (lo, hi) else mappingRange h cs
    | _ => mappingRange h cs
    end.
Proof. unfold mappingRange. rewrite foldl_app. by destruct c. Qed.

(** The transfer function exists and was last given the range [r]. *)
Definition rangeIs (r : Vector2) (w : World) : Prop :=
  exists lut, lutRef w = Some lut
              /\ mappingRange lut (calls (engine w)) = Some r.

Lemma applyPreset_rangeIs name (r : Vector2) w :
  name <> EmptyString ->
  thrown (applyPreset getPresetByName (PresetName name) r w) = false ->
  rangeIs r (applyPreset getPresetByName (PresetName name) r w).
Proof.
  intros Hname. unfold applyPreset, rangeIs; simpl.
  apply String.eqb_neq in Hname. rewrite Hname.
  unfold getLUT, GetterRef.get. destruct r as [lo hi].
  destruct (lutRef w) as [lut|]; simpl;
    (destruct (getPresetByName name); simpl; [intros _|done]).
  - exists lut. split; [done|].
    rewrite !mappingRange_snoc. by rewrite Nat.eqb_refl.
  - eexists. split; [done|].
    rewrite !mappingRange_snoc. by rewrite Nat.eqb_refl.
Qed.

Lemma attachLookupTable_rangeIs attached r w :
  rangeIs r w -> rangeIs r (attachLookupTable attached w).
Proof.
  intros (lut & Href & Hrange). unfold attachLookupTable.
  destruct attached; [by exists lut|].
  unfold getLUT, GetterRef.get. rewrite Href; simpl.
  exists lut. split; [done|]. simpl. by rewrite mappingRange_snoc.
Qed.

Lemma consumeModified_rangeIs requests r w :
  rangeIs r w -> rangeIs r (snd (consumeModified requests w)).
Proof.
  intros (lut & Href & Hrange). unfold consumeModified.
  destruct (modified w); by exists lut.
Qed.

(** What the stored dependency tuple says about the engine, as long as
    nothing has thrown. *)
Definition depsApplied (s : State) : Prop :=
  thrown (world s) = false ->
  forall name r, lutDeps s = Some (name, r) -> name <> EmptyString ->
                 rangeIs r (world s).

Lemma depsApplied_renderPass props s :
  depsApplied s -> depsApplied (renderPass props s).
Proof.
  intros Hs Hafter name r Hdeps Hname.
  destruct (thrown (world s)) eqn:Ht.
  { rewrite (proj1 (renderPass_thrown props s Ht)) in Hafter. congruence. }
  destruct (thrown (afterPreset props s)) eqn:Ha.
  { rewrite (proj1 (renderPass_throws props s Ht Ha)) in Hafter. congruence. }
  rewrite lutDeps_renderPass in Hdeps by done. injection Hdeps as <- <-.
  destruct (renderPass_runs props s Ht Ha) as (-> & _).
  apply consumeModified_rangeIs, attachLookupTable_rangeIs.
  unfold afterPreset, useColorTransferFunction,
    ComparableEffect.useComparableEffect in *. simpl in *.
  destruct (lutDeps s) as [[oldName oldRange]|] eqn:Hold.
  - destruct (compareDeps _ _ _) eqn:Hcmp; simpl in *.
    + unfold compareDeps in Hcmp; simpl in Hcmp.
      apply andb_true_iff in Hcmp as [Hn Hr].
      apply String.eqb_eq in Hn. apply compareVector2_sound in Hr.
      subst oldName oldRange. by apply (Hs Ht (colorMapPresetOf props)).
    + by apply applyPreset_rangeIs.
  - by apply applyPreset_rangeIs.
Qed.

Lemma depsApplied_run steps s :
  depsApplied s -> depsApplied (run steps s).
Proof.
  revert s. induction steps as [|st steps IH]; intros s Hs; [done|].
  unfold run in *. simpl. apply IH.
  destruct st; simpl; [done|done|]. by apply depsApplied_renderPass.
Qed.

(** After a pass in which nothing has thrown, on a preset with a name,
    the transfer function has the colour range of the props. *)
Lemma rangeIs_after_pass steps props :
  thrown (world (run steps initial)) = false ->
  colorMapPresetOf props <> EmptyString ->
  getPresetByName (colorMapPresetOf props) <> None ->
  rangeIs (colorDataRangeOf props)
    (world (run (steps ++ [Render props]) initial)).
Proof.
  intros Ht Hname Hknown.
  unfold run. rewrite foldl_app. simpl. fold (run steps initial).
  assert (Hinv : depsApplied (renderPass props (run steps initial))).
  { apply depsApplied_renderPass, depsApplied_run. by intros _ name r. }
  apply (Hinv (thrown_renderPass props _ Ht (or_intror Hknown))
              (colorMapPresetOf props) (colorDataRangeOf props));
    [by apply lutDeps_renderPass | done].
Qed.

(** C10 (amended).  With [colorDataRange] omitted or ['auto'] the range
    handed to the transfer function is exactly [[0, 1]], and, when the
    preset name is not empty and the colour-map table has it, after the
    render pass the transfer function exists and the mapping range it
    was last given is [[0, 1]].  This is so after any history in which
    no effect of the component has thrown, whatever data the mapper was
    given.  (With an empty preset name the effect returns before
    touching the range.) *)
Theorem auto_range_is_unit_interval steps props :
  colorDataRange props = None \/ colorDataRange props = Some Auto ->
  colorMapPresetOf props <> EmptyString ->
  getPresetByName (colorMapPresetOf props) <> None ->
  thrown (world (run steps initial)) = false ->
  let s := run (steps ++ [Render props]) initial in
  colorDataRangeOf props = (0, 1)%Q
  /\ exists lut,
       lutRef (world s) = Some lut
       /\ mappingRange lut (calls (engine (world s))) = Some (0, 1)%Q.
Proof.
  intros Hauto Hname Hknown Ht. cbv zeta.
  assert (Hrange : colorDataRangeOf props = (0, 1)%Q).
  { unfold colorDataRangeOf, rangeFromProps. by destruct Hauto as [-> | ->]. }
  split; [done|].
  rewrite <- Hrange. by apply rangeIs_after_pass.
Qed.

(** *** The transfer function over the life of a representation *)

Definition isNewInstance (c : NativeCall) : bool :=
  match c with NewInstance _ => true | _ => false end.

Definition isDelete (c : NativeCall) : bool :=
  match c with Delete _ => true | _ => false end.

Definition isRenderStep (st : Step) : bool :=
  match st with Render _ => true | _ => false end.

(** A history in which the component was rendered at least once. *)
Definition mounted (steps : list Step) : bool := existsb isRenderStep steps.

(** No transfer function yet: the engine and the registry are untouched,
    and nothing has thrown. *)
Definition freshW (w : World) : Prop :=
  lutRef w = None
  /\ engine w = mkEngine 0 []
  /\ registry w = DeletionRegistry.empty
  /\ thrown w = false.

(** The one transfer function exists, with its deletion on record and
    not queued. *)
Definition liveW (w : World) : Prop :=
  lutRef w = Some 0
  /\ nextHandle (engine w) = 1
  /\ DeletionRegistry.queue (registry w) = []
  /\ DeletionRegistry.onDelete (registry w) !! 0 = Some (native (Delete 0))
  /\ filter isNewInstance (calls (engine w)) = [NewInstance 0]
  /\ filter isDelete (calls (engine w)) = [].

Lemma getLUT_liveW w : liveW w -> getLUT w = (Some 0, w).
Proof.
  intros (Href & _). unfold getLUT, GetterRef.get.
  destruct w as [ref e reg m t]. simpl in *. by subst.
Qed.

Lemma getLUT_freshW w :
  freshW w -> fst (getLUT w) = Some 0 /\ liveW (snd (getLUT w)).
Proof.
  intros (Href & He & Hreg & _). unfold getLUT, GetterRef.get.
  destruct w as [ref e reg m t]. simpl in *. subst. simpl.
  split; [done|]. by repeat split.
Qed.

Lemma liveW_extend w w' extra :
  liveW w ->
  lutRef w' = lutRef w ->
  registry w' = registry w ->
  nextHandle (engine w') = nextHandle (engine w) ->
  calls (engine w') = calls (engine w) ++ extra ->
  filter isNewInstance extra = [] ->
  filter isDelete extra = [] ->
  liveW w'.
Proof.
  intros (Href & Hn & Hq & Hd & Hnew & Hdel) Hr Hreg Hnext Hcalls Hx1 Hx2.
  unfold liveW. rewrite Hr, Hreg, Hnext, Hcalls, !filter_app, Hnew, Hdel, Hx1, Hx2.
  by repeat split.
Qed.

Lemma applyPreset_liveW name r w :
  liveW w -> liveW (applyPreset getPresetByName (PresetName name) r w).
Proof.
  intros Hw. unfold applyPreset. simpl.
  destruct (String.eqb _ _); [done|].
  rewrite (getLUT_liveW w Hw).
  destruct (getPresetByName name).
  - eapply (liveW_extend w _ [_; _; _] Hw); simpl; try done.
    + by rewrite <- !app_assoc.
    + done.
    + done.
  - by eapply (liveW_extend w _ [_] Hw).
Qed.

Lemma applyPreset_freshW name r w :
  freshW w ->
  let w' := applyPreset getPresetByName (PresetName name) r w in
  freshW w' \/ liveW w'.
Proof.
  intros Hw. cbv zeta. unfold applyPreset. simpl.
  destruct (String.eqb _ _); [by left|]. right.
  destruct (getLUT_freshW w Hw) as [Hh Hlive].
  destruct (getLUT w) as [h w1]. simpl in *. subst h.
  destruct (getPresetByName name).
  - eapply (liveW_extend w1 _ [_; _; _] Hlive); simpl; try done.
    + by rewrite <- !app_assoc.
    + done.
    + done.
  - by eapply (liveW_extend w1 _ [_] Hlive).
Qed.

Lemma attachLookupTable_liveW attached w :
  liveW w -> liveW (attachLookupTable attached w).
Proof.
  intros Hw. unfold attachLookupTable. destruct attached; [done|].
  rewrite (getLUT_liveW w Hw).
  by eapply (liveW_extend w _ [_] Hw).
Qed.

Lemma attachLookupTable_freshW w :
  freshW w -> liveW (attachLookupTable false w).
Proof.
  intros Hw. unfold attachLookupTable.
  destruct (getLUT_freshW w Hw) as [Hh Hlive].
  destruct (getLUT w) as [h w1]. simpl in *. subst h.
  by eapply (liveW_extend w1 _ [_] Hlive).
Qed.

Lemma consumeModified_liveW requests w :
  liveW w -> liveW (snd (consumeModified requests w)).
Proof. intros Hw. unfold consumeModified. by destruct (modified w). Qed.

Lemma afterPreset_liveW props s :
  liveW (world s) -> liveW (afterPreset props s).
Proof.
  intros Hw. unfold afterPreset, useColorTransferFunction,
    ComparableEffect.useComparableEffect. simpl.
  destruct (match lutDeps s with Some _ => _ | None => _ end); [|done].
  by apply applyPreset_liveW.
Qed.

Lemma afterPreset_freshW props s :
  freshW (world s) ->
  (freshW (afterPreset props s) \/ liveW (afterPreset props s)).
Proof.
  intros Hw. unfold afterPreset, useColorTransferFunction,
    ComparableEffect.useComparableEffect. simpl.
  destruct (match lutDeps s with Some _ => _ | None => _ end); [|by left].
  by apply applyPreset_freshW.
Qed.

Lemma renderPass_liveW props s :
  (lutAttached s = false /\ freshW (world s)) \/ liveW (world s) ->
  liveW (world (renderPass props s)).
Proof.
  intros Hs.
  destruct (thrown (world s)) eqn:Ht.
  { rewrite (proj1 (renderPass_thrown props s Ht)).
    destruct Hs as [[_ (_ & _ & _ & Hno)]|Hlive]; [congruence|done]. }
  destruct (thrown (afterPreset props s)) eqn:Ha.
  { rewrite (proj1 (renderPass_throws props s Ht Ha)).
    destruct Hs as [[_ Hfresh]|Hlive].
    - destruct (afterPreset_freshW props s Hfresh) as [(_ & _ & _ & Hno)|Hl];
        [congruence|done].
    - by apply afterPreset_liveW. }
  destruct (renderPass_runs props s Ht Ha) as (-> & _).
  apply consumeModified_liveW.
  destruct Hs as [[Hatt Hfresh]|Hlive].
  - rewrite Hatt.
    destruct (afterPreset_freshW props s Hfresh) as [Hf|Hl].
    + by apply attachLookupTable_freshW.
    + by apply attachLookupTable_liveW.
  - by apply attachLookupTable_liveW, afterPreset_liveW.
Qed.

Lemma step_keeps_world s st :
  isRenderStep st = false ->
  world (step s st) = world s /\ lutAttached (step s st) = lutAttached s.
Proof. by destruct st. Qed.

Lemma run_liveW steps s :
  liveW (world s) -> liveW (world (run steps s)).
Proof.
  revert s. induction steps as [|st steps IH]; intros s Hs; [done|].
  unfold run in *. simpl. apply IH.
  destruct st as [a|r|props]; simpl; [done|done|].
  apply renderPass_liveW. by right.
Qed.

Lemma run_fresh_or_live steps s :
  lutAttached s = false -> freshW (world s) ->
  if mounted steps
  then liveW (world (run steps s))
  else lutAttached (run steps s) = false /\ freshW (world (run steps s)).
Proof.
  revert s. induction steps as [|st steps IH]; intros s Hatt Hs; [done|].
  unfold run in *. simpl.
  destruct st as [a|r|props]; simpl.
  - by apply IH.
  - by apply IH.
  - apply (run_liveW steps). apply renderPass_liveW. by left.
Qed.

Lemma run_initial steps :
  if mounted steps
  then liveW (world (run steps initial))
  else freshW (world (run steps initial)).
Proof.
  pose proof (run_fresh_or_live steps initial eq_refl) as H.
  destruct (mounted steps); [by apply H|].
  by apply H.
Qed.

(** X6.  Mounting a representation whose preset name is not empty and
    which the colour-map table has makes these engine calls, in this
    order: the transfer function is created, the preset found under the
    name (['Grayscale'] when the prop is omitted) is applied, the mapping
    range is set to the colour range of the props, the range is updated,
    and the function is attached to the actor; the pass asks the view for
    exactly one render and leaves the accumulator clear.  With a name the
    table does not have, [applyColorMap(undefined)] throws: the engine has
    seen the creation and that call only, nothing is attached and no
    render is asked for. *)
Theorem mount_builds_transfer_function props :
  colorMapPresetOf props <> EmptyString ->
  let s := renderPass props initial in
  match getPresetByName (colorMapPresetOf props) with
  | Some preset =>
      calls (engine (world s))
      = [NewInstance 0;
         ApplyColorMap 0 (Some preset);
         SetMappingRange 0 (fst (colorDataRangeOf props))
           (snd (colorDataRangeOf props));
         UpdateRange 0;
         SetRGBTransferFunction 0 0]
      /\ renderRequests s = 1
      /\ modified (world s) = false
      /\ thrown (world s) = false
  | None =>
      calls (engine (world s)) = [NewInstance 0; ApplyColorMap 0 None]
      /\ renderRequests s = 0
      /\ lutAttached s = false
      /\ thrown (world s) = true
  end.
Proof.
  intros Hname. apply String.eqb_neq in Hname. cbv zeta.
  unfold renderPass, useColorTransferFunction,
    ComparableEffect.useComparableEffect, applyPreset. simpl.
  rewrite Hname.
  by destruct (getPresetByName (colorMapPresetOf props)).
Qed.

(** X7.  However long a representation lives, its transfer function is
    constructed at most once: after any history the engine has seen one
    [newInstance()] if the component was ever rendered and none
    otherwise, and the getter holds that one handle. *)
Theorem transfer_function_built_once steps :
  let w := world (run steps initial) in
  length (filter isNewInstance (calls (engine w)))
  = (if mounted steps then 1 else 0)
  /\ lutRef w = (if mounted steps then Some 0 else None).
Proof.
  cbv zeta. pose proof (run_initial steps) as H.
  destruct (mounted steps).
  - destruct H as (Href & _ & _ & _ & Hnew & _). by rewrite Hnew, Href.
  - destruct H as (Href & He & _). by rewrite He, Href.
Qed.

(** X8.  A render pass with the props of the pass before it, when
    [compareVector2] accepts the colour range against itself, leaves the
    transfer function alone: no engine call is made and the accumulator
    is not marked, although the range array is a new one on every
    pass. *)
Theorem unchanged_props_leave_lut_alone props s :
  compareVector2 (colorDataRangeOf props) (colorDataRangeOf props) = true ->
  let s1 := renderPass props s in
  world (renderPass props s1) = world s1
  /\ renderRequests (renderPass props s1) = renderRequests s1.
Proof.
  intros Hsame. cbv zeta.
  destruct (thrown (world (renderPass props s))) eqn:Ht1.
  { destruct (renderPass_thrown props _ Ht1) as (Hw & Hr & _). by split. }
  assert (Ht : thrown (world s) = false).
  { destruct (thrown (world s)) eqn:Ht; [|done].
    rewrite (proj1 (renderPass_thrown props s Ht)) in Ht1. congruence. }
  assert (Ha : thrown (afterPreset props s) = false).
  { destruct (thrown (afterPreset props s)) eqn:Ha; [|done].
    rewrite (proj1 (renderPass_throws props s Ht Ha)) in Ht1. congruence. }
  assert (Hm : modified (world (renderPass props s)) = false).
  { destruct (renderPass_runs props s Ht Ha) as (-> & _).
    apply consumeModified_spec. }
  pose proof (lutDeps_renderPass props s Ht) as Hdeps.
  pose proof (proj2 (proj2 (renderPass_runs props s Ht Ha))) as Hatt.
  set (s1 := renderPass props s) in *.
  assert (Hidle : afterPreset props s1 = world s1).
  { unfold afterPreset, useColorTransferFunction,
      ComparableEffect.useComparableEffect.
    rewrite Hdeps. simpl. unfold compareDeps. simpl.
    by rewrite String.eqb_refl, Hsame. }
  destruct (renderPass_runs props s1 Ht1) as (Hw & Hr & _).
  { by rewrite Hidle. }
  rewrite Hw, Hr, Hidle, Hatt. unfold attachLookupTable, consumeModified.
  by rewrite Hm.
Qed.

(** X10.  Unmounting after any history clears the getter and queues the
    deletion of the transfer function if one was built; the flush that
    follows deletes it, once, so that every [newInstance()] the engine
    saw is matched by one [delete()].  Unmounting again changes
    nothing. *)
Theorem unmount_deletes_once steps :
  let w := world (run steps initial) in
  let w1 := unmount w in
  let e := snd (DeletionRegistry.flush (registry w1) (engine w1)) in
  lutRef w1 = None
  /\ unmount w1 = w1
  /\ calls e = calls (engine w) ++ (if mounted steps then [Delete 0] else [])
  /\ length (filter isDelete (calls e))
     = length (filter isNewInstance (calls e)).
Proof.
  cbv zeta. pose proof (run_initial steps) as H.
  set (w := world (run steps initial)) in *.
  destruct (mounted steps).
  - destruct H as (Href & Hn & Hq & Hd & Hnew & Hdel).
    unfold unmount. rewrite Href. simpl.
    unfold DeletionRegistry.markForDeletion, DeletionRegistry.queued.
    rewrite Hq. simpl. rewrite Hd. simpl.
    repeat split.
    by rewrite !filter_app, Hnew, Hdel.
  - destruct H as (Href & He & Hreg & _).
    unfold unmount. rewrite Href, Hreg, He. simpl. by rewrite Href.
Qed.

(** X11.  A [getLUT()] after the unmount does not bring the old transfer
    function back: the getter was cleared, so a second function is
    built, under a new handle, and the flush deletes the old one only. *)
Theorem getLUT_after_unmount_builds_anew steps :
  mounted steps = true ->
  let w := world (run steps initial) in
  let again := getLUT (unmount w) in
  let e := snd (DeletionRegistry.flush (registry (snd again)) (engine (snd again))) in
  fst again = Some 1
  /\ lutRef (snd again) = Some 1
  /\ (DeletionRegistry.queue (registry (snd again))).*1 = [0]
  /\ calls e = calls (engine w) ++ [NewInstance 1; Delete 0].
Proof.
  intros Hm. cbv zeta. pose proof (run_initial steps) as H.
  rewrite Hm in H. set (w := world (run steps initial)) in *.
  destruct H as (Href & Hn & Hq & Hd & Hnew & Hdel).
  unfold unmount. rewrite Href.
  unfold getLUT, GetterRef.get, lutFactory, newInstance. simpl.
  rewrite Hn.
  unfold DeletionRegistry.markForDeletion, DeletionRegistry.queued.
  rewrite Hq. simpl. rewrite Hd. simpl.
  repeat split. by rewrite <- app_assoc.
Qed.

(** X9.  A colour range given as a pair reaches the engine as it is:
    after any history in which no effect of the component has thrown, a
    render pass with [colorDataRange] set to a pair and a preset name
    that is not empty and that the colour-map table has leaves the
    transfer function with that pair as the mapping range it was last
    given. *)
Theorem explicit_range_reaches_lut steps props v :
  colorDataRange props = Some (Range v) ->
  colorMapPresetOf props <> EmptyString ->
  getPresetByName (colorMapPresetOf props) <> None ->
  thrown (world (run steps initial)) = false ->
  let s := run (steps ++ [Render props]) initial in
  exists lut,
    lutRef (world s) = Some lut
    /\ mappingRange lut (calls (engine (world s))) = Some v.
Proof.
  intros Hrange Hname Hknown Ht. cbv zeta.
  assert (Hv : colorDataRangeOf props = v).
  { unfold colorDataRangeOf, rangeFromProps. by rewrite Hrange. }
  rewrite <- Hv. by apply rangeIs_after_pass.
Qed.

End Component.

(** *** Closed examples

    A preset table with two entries, and [compareVector2] as
    componentwise equality. *)
Definition exGetPresetByName (name : string) : option IColorMapPreset :=
  if String.eqb name "Grayscale" || String.eqb name "jet"
  then Some (mkPreset name)
  else None.

Definition Q_eqb (a b : Q) : bool :=
  Z.eqb (Qnum a) (Qnum b) && Pos.eqb (Qden a) (Qden b).

Definition exCompareVector2 (a b : Vector2) : bool :=
  Q_eqb (fst a) (fst b) && Q_eqb (snd a) (snd b).

Lemma exCompareVector2_sound (a b : Vector2) :
  exCompareVector2 a b = true -> a = b.
Proof.
  destruct a as [[n1 d1] [n2 d2]], b as [[m1 e1] [m2 e2]].
  unfold exCompareVector2, Q_eqb; simpl. intros Heq.
  apply andb_true_iff in Heq as [Hfst Hsnd].
  apply andb_true_iff in Hfst as [Hn1 Hd1].
  apply andb_true_iff in Hsnd as [Hn2 Hd2].
  apply Z.eqb_eq in Hn1, Hn2. apply Pos.eqb_eq in Hd1, Hd2.
  by subst.
Qed.

(** C2 as stated fails: data is reported available, then unavailable.
    The declared visibility is [true] and a [true] report came first, yet
    the actor is hidden at the next pass. *)
Lemma visibility_not_latched :
  let props := mkProps (Some (mkActorProps (Some true))) None None in
  let history :=
    [Render props; DataAvailable (Some true); Render props;
     DataAvailable (Some false)] in
  let s := run exGetPresetByName exCompareVector2 history initial in
  actorVisibility s = Some true
  /\ declaredVisibility props = true
  /\ actorVisibility (renderPass exGetPresetByName exCompareVector2 props s)
     = Some false.
Proof. cbv zeta. repeat split; reflexivity. Qed.

Lemma auto_range_is_unit_interval_witness :
  let props := mkProps None None None in
  let history := [SetInputData (3, 7)%Q; DataAvailable None] in
  let s :=
    run exGetPresetByName exCompareVector2 (history ++ [Render props]) initial in
  colorDataRangeOf props = (0, 1)%Q
  /\ exists lut,
       lutRef (world s) = Some lut
       /\ mappingRange lut (calls (engine (world s))) = Some (0, 1)%Q.
Proof.
  apply (auto_range_is_unit_interval exGetPresetByName exCompareVector2
           exCompareVector2_sound
           [SetInputData (3, 7)%Q; DataAvailable None] (mkProps None None None)).
  - left. reflexivity.
  - discriminate.
  - discriminate.
  - reflexivity.
Defined.

(** C10 as stated fails: [colorDataRange] is omitted and the preset name
    is the empty string.  The transfer function is created and attached
    to the actor, but no mapping range is ever set on it. *)
Lemma auto_range_not_set_without_preset :
  let props := mkProps None (Some EmptyString) None in
  let s := run exGetPresetByName exCompareVector2 [Render props] initial in
  colorDataRange props = None
  /\ lutRef (world s) = Some 0
  /\ calls (engine (world s)) = [NewInstance 0; SetRGBTransferFunction 0 0]
  /\ mappingRange 0 (calls (engine (world s))) = None.
Proof. cbv zeta. repeat split; reflexivity. Qed.

(** A mount with the default preset, and one with a preset name the
    table does not have. *)
Lemma mount_builds_transfer_function_witness :
  let s := renderPass exGetPresetByName exCompareVector2
             (mkProps None None None) initial in
  let s' := renderPass exGetPresetByName exCompareVector2
              (mkProps None (Some "Viridis (matplotlib)") None) initial in
  (calls (engine (world s))
   = [NewInstance 0;
      ApplyColorMap 0 (Some (mkPreset "Grayscale"));
      SetMappingRange 0 0 1;
      UpdateRange 0;
      SetRGBTransferFunction 0 0]
   /\ renderRequests s = 1
   /\ modified (world s) = false
   /\ thrown (world s) = false)
  /\ (calls (engine (world s')) = [NewInstance 0; ApplyColorMap 0 None]
      /\ renderRequests s' = 0
      /\ lutAttached s' = false
      /\ thrown (world s') = true).
Proof.
  split.
  - apply (mount_builds_transfer_function exGetPresetByName exCompareVector2
             (mkProps None None None)).
    discriminate.
  - apply (mount_builds_transfer_function exGetPresetByName exCompareVector2
             (mkProps None (Some "Viridis (matplotlib)") None)).
    discriminate.
Defined.

Lemma unchanged_props_leave_lut_alone_witness :
  let props := mkProps None (Some "jet") None in
  let s1 := renderPass exGetPresetByName exCompareVector2 props initial in
  world (renderPass exGetPresetByName exCompareVector2 props s1) = world s1
  /\ renderRequests (renderPass exGetPresetByName exCompareVector2 props s1)
     = renderRequests s1.
Proof.
  apply (unchanged_props_leave_lut_alone exGetPresetByName exCompareVector2
           (mkProps None (Some "jet") None) initial).
  reflexivity.
Defined.

Lemma explicit_range_reaches_lut_witness :
  let props := mkProps None None (Some (Range (2, 5)%Q)) in
  let s :=
    run exGetPresetByName exCompareVector2
      ([Render (mkProps None None None); SetInputData (3, 7)%Q]
       ++ [Render props]) initial in
  exists lut,
    lutRef (world s) = Some lut
    /\ mappingRange lut (calls (engine (world s))) = Some (2, 5)%Q.
Proof.
  apply (explicit_range_reaches_lut exGetPresetByName exCompareVector2
           exCompareVector2_sound
           [Render (mkProps None None None); SetInputData (3, 7)%Q]
           (mkProps None None (Some (Range (2, 5)%Q))) (2, 5)%Q).
  - reflexivity.
  - discriminate.
  - discriminate.
  - reflexivity.
Defined.

Lemma getLUT_after_unmount_builds_anew_witness :
  let w := world (run exGetPresetByName exCompareVector2
                    [Render (mkProps None None None)] initial) in
  let again := getLUT (unmount w) in
  let e := snd (DeletionRegistry.flush (registry (snd again))
                  (engine (snd again))) in
  fst again = Some 1
  /\ lutRef (snd again) = Some 1
  /\ (DeletionRegistry.queue (registry (snd again))).*1 = [0]
  /\ calls e = calls (engine w) ++ [NewInstance 1; Delete 0].
Proof.
  apply (getLUT_after_unmount_builds_anew exGetPresetByName exCompareVector2
           [Render (mkProps None None None)]).
  reflexivity.
Defined.

End SliceRepresentation.

(** ** core/SliceRepresentation.tsx: the slice effects *)

Module SliceMapper.
Import BooleanAccumulator.

(** What [mapper.isA('vtkImageMapper')] and
    [mapper.isA('vtkImageArrayMapper')] tell apart. *)
Inductive MapperClass : Type :=
  | ImageMapper
  | ImageArrayMapper
  | OtherMapper.

(** The six slicing setters of a [vtkImageMapper]. *)
Inductive Axis : Type := I | J | K | X | Y | Z.

(** The seven slice effects of the component, in the order it declares
    them: one per setter, then the one for a [vtkImageArrayMapper]. *)
Inductive EffectId : Type :=
  | AxisEffect (a : Axis)
  | ArrayEffect.

(** A mapper object passed in as [mapperInstance]. *)
Record Instance : Type := mkInstance {
  instanceId : nat;
  instanceClass : MapperClass;
}.

Global Instance MapperClass_eq_dec : EqDecision MapperClass.
Proof. solve_decision. Defined.
Global Instance Axis_eq_dec : EqDecision Axis.
Proof. solve_decision. Defined.
Global Instance EffectId_eq_dec : EqDecision EffectId.
Proof. solve_decision. Defined.
Global Instance Instance_eq_dec : EqDecision Instance.
Proof. solve_decision. Defined.

(** [function isVtkImageMapper(mapper)] *)
Definition isVtkImageMapper (c : MapperClass) : bool :=
  match c with ImageMapper => true | _ => false end.

(** [function isVtkImageArrayMapper(mapper)] *)
Definition isVtkImageArrayMapper (c : MapperClass) : bool :=
  match c with ImageArrayMapper => true | _ => false end.

Section Effects.

(** Slice positions are numbers the code only compares and passes on;
    what a mapper holds is the engine's business. *)
Context {Number MapperState : Type} `{EqDecision Number}.

(** [mapper.setISlice(v)] ... [mapper.setZSlice(v)], with the boolean
    they return; [mapper.getSlice()] and [mapper.setSlice(v)]. *)
Variable setAxisSlice : Axis -> Number -> MapperState -> bool * MapperState.
Variable getSlice : MapperState -> Number.
Variable setSlice : Number -> MapperState -> MapperState.

Record Props : Type := mkProps {
  mapperInstance : option Instance;
  iSlice : option Number;
  jSlice : option Number;
  kSlice : option Number;
  xSlice : option Number;
  ySlice : option Number;
  zSlice : option Number;
}.

(** [getMapper()]: the instance passed in, else the internal mapper
    ([None]), which is a [vtkImageMapper]. *)
Definition getMapper (props : Props) : option Instance := mapperInstance props.

Definition classOf (mapper : option Instance) : MapperClass :=
  match mapper with
  | Some instance => instanceClass instance
  | None => ImageMapper
  end.

Definition sliceOf (props : Props) (a : Axis) : option Number :=
  match a with
  | I => iSlice props
  | J => jSlice props
  | K => kSlice props
  | X => xSlice props
  | Y => ySlice props
  | Z => zSlice props
  end.

Inductive MapperCall : Type :=
  | CallSetAxisSlice (a : Axis) (v : Number)
  | CallSetSlice (v : Number).

(** An effect's dependency list: its slice prop and [getMapper], whose
    identity follows [mapperInstance] ([trackModified] is stable). *)
Definition Deps : Type := (option Number * option Instance)%type.

(** The mappers in the engine, the dependency list each effect last ran
    with, the calls made on mappers, and the accumulator behind
    [trackModified]. *)
Record State : Type := mkState {
  mappers : option Instance -> MapperState;
  effectDeps : EffectId -> option Deps;
  mapperCalls : list (option Instance * MapperCall);
  modified : bool;
}.

(** [if (isVtkImageMapper(mapper) && iSlice != null)
      trackModified(mapper.setISlice(iSlice));] and its five siblings. *)
Definition axisBody (a : Axis) (props : Props) (st : State) : State :=
  let mapper := getMapper props in
  if isVtkImageMapper (classOf mapper) then
    match sliceOf props a with
    | Some v =>
        let '(changed, ms) := setAxisSlice a v (mappers st mapper) in
        mkState (<[mapper := ms]> (mappers st)) (effectDeps st)
          (mapperCalls st ++ [(mapper, CallSetAxisSlice a v)])
          (mark changed (modified st))
    | None => st
    end
  else st.

(** [if (isVtkImageArrayMapper(mapper) && kSlice != null &&
         kSlice !== mapper.getSlice())
      { trackModified(true); mapper.setSlice(kSlice); }] *)
Definition arrayBody (props : Props) (st : State) : State :=
  let mapper := getMapper props in
  if isVtkImageArrayMapper (classOf mapper) then
    match kSlice props with
    | Some v =>
        if decide (v = getSlice (mappers st mapper)) then st
        else
          mkState (<[mapper := setSlice v (mappers st mapper)]> (mappers st))
            (effectDeps st)
            (mapperCalls st ++ [(mapper, CallSetSlice v)])
            (mark true (modified st))
    | None => st
    end
  else st.

Definition body (id : EffectId) (props : Props) (st : State) : State :=
  match id with
  | AxisEffect a => axisBody a props st
  | ArrayEffect => arrayBody props st
  end.

Definition depsOf (props : Props) (id : EffectId) : Deps :=
  (match id with
   | AxisEffect a => sliceOf props a
   | ArrayEffect => kSlice props
   end, mapperInstance props).

(** Whether an effect runs in this pass: on mount, and when its
    dependency list changed. *)
Definition due (id : EffectId) (props : Props) (st : State) : bool :=
  bool_decide (effectDeps st id <> Some (depsOf props id)).

(** [useEffect(body, deps)] in one render pass. *)
Definition useEffect (id : EffectId) (props : Props) (st : State) : State :=
  if due id props st
  then body id props
         (mkState (mappers st) (<[id := Some (depsOf props id)]> (effectDeps st))
            (mapperCalls st) (modified st))
  else st.

Definition effectOrder : list EffectId :=
  [AxisEffect I; AxisEffect J; AxisEffect K;
   AxisEffect X; AxisEffect Y; AxisEffect Z; ArrayEffect].

(** The slice effects of one render pass. *)
Definition sliceEffects (props : Props) (st : State) : State :=
  foldl (fun st id => useEffect id props st) st effectOrder.

(** A component that has not rendered yet. *)
Definition initial (engine : option Instance -> MapperState) : State :=
  mkState engine (fun _ => None) [] useBooleanAccumulator.

(** The setter calls a mount makes on a [vtkImageMapper]: one for each
    slice prop that is given. *)
Definition givenSlices (props : Props) : list (option Instance * MapperCall) :=
  omap (fun a => (fun v => (getMapper props, CallSetAxisSlice a v))
                   <$> sliceOf props a)
       [I; J; K; X; Y; Z].

(** *** Dependency lists *)

Lemma effectDeps_body id props st :
  effectDeps (body id props st) = effectDeps st.
Proof.
  destruct id as [a|]; simpl; unfold axisBody, arrayBody.
  - destruct (isVtkImageMapper _); [|done].
    destruct (sliceOf props a); [|done]. by destruct (setAxisSlice _ _ _).
  - destruct (isVtkImageArrayMapper _); [|done].
    destruct (kSlice props); [|done]. by destruct (decide _).
Qed.

Lemma useEffect_deps id props st id' :
  effectDeps (useEffect id props st) id'
  = if decide (id = id') then Some (depsOf props id) else effectDeps st id'.
Proof.
  unfold useEffect, due. case_bool_decide as Hdue.
  - rewrite effectDeps_body. simpl. unfold insert, fn_insert.
    by destruct (decide (id = id')).
  - destruct (decide (id = id')) as [<-|]; [|done].
    by destruct (decide (effectDeps st id = Some (depsOf props id))).
Qed.

Lemma useEffect_settled id props st :
  effectDeps st id = Some (depsOf props id) -> useEffect id props st = st.
Proof.
  intros Hdeps. unfold useEffect, due.
  by rewrite bool_decide_eq_false_2 by (intros Hne; by apply Hne).
Qed.

Lemma effectDeps_effects ids props st id :
  id ∈ ids ->
  effectDeps (foldl (fun st id => useEffect id props st) st ids) id
  = Some (depsOf props id).
Proof.
  revert st. induction ids as [|id0 ids IH] using rev_ind; intros st Hin.
  - by apply elem_of_nil in Hin.
  - rewrite foldl_app. simpl. rewrite useEffect_deps.
    destruct (decide (id0 = id)) as [<-|Hne]; [done|].
    apply IH. apply elem_of_app in Hin as [Hin|Hin]; [done|].
    apply list_elem_of_singleton in Hin. congruence.
Qed.

Lemma effectOrder_complete id : id ∈ effectOrder.
Proof.
  unfold effectOrder. destruct id as [[]|]; repeat (constructor; try done).
Qed.

Lemma effectDeps_sliceEffects props st id :
  effectDeps (sliceEffects props st) id = Some (depsOf props id).
Proof. apply effectDeps_effects, effectOrder_complete. Qed.

(** X14.  The slice effects are gated by their dependency lists: a
    render pass with the props of the pass before it runs none of them,
    so it makes no call on any mapper and does not mark the accumulator;
    the state is the one the pass before left. *)
Theorem slice_effects_run_once_per_change props st :
  sliceEffects props (sliceEffects props st) = sliceEffects props st.
Proof.
  pose proof (effectDeps_sliceEffects props st) as Hdeps.
  set (st1 := sliceEffects props st) in *.
  unfold sliceEffects, effectOrder. simpl.
  rewrite (useEffect_settled (AxisEffect I)) by apply Hdeps.
  rewrite (useEffect_settled (AxisEffect J)) by apply Hdeps.
  rewrite (useEffect_settled (AxisEffect K)) by apply Hdeps.
  rewrite (useEffect_settled (AxisEffect X)) by apply Hdeps.
  rewrite (useEffect_settled (AxisEffect Y)) by apply Hdeps.
  rewrite (useEffect_settled (AxisEffect Z)) by apply Hdeps.
  by rewrite (useEffect_settled ArrayEffect) by apply Hdeps.
Qed.

(** *** A [vtkImageMapper] *)

(** The six setter effects, which come first. *)
Definition axisEffects (props : Props) (st : State) : State :=
  foldl (fun st id => useEffect id props st) st
    [AxisEffect I; AxisEffect J; AxisEffect K;
     AxisEffect X; AxisEffect Y; AxisEffect Z].

Lemma sliceEffects_split props st :
  sliceEffects props st = useEffect ArrayEffect props (axisEffects props st).
Proof. unfold sliceEffects, axisEffects, effectOrder. cbn [foldl]. reflexivity. Qed.

Lemma NoDup_axes : NoDup [I; J; K; X; Y; Z].
Proof. apply (bool_decide_unpack _). vm_compute. constructor. Qed.

Lemma useEffect_axis_image a props st :
  classOf (getMapper props) = ImageMapper ->
  effectDeps st (AxisEffect a) = None ->
  mapperCalls (useEffect (AxisEffect a) props st)
  = mapperCalls st
    ++ match sliceOf props a with
       | Some v => [(getMapper props, CallSetAxisSlice a v)]
       | None => []
       end.
Proof.
  intros Hclass Hnone. unfold useEffect, due.
  rewrite bool_decide_eq_true_2 by by rewrite Hnone.
  simpl. unfold axisBody. rewrite Hclass. simpl.
  destruct (sliceOf props a); simpl; [|by rewrite app_nil_r].
  by destruct (setAxisSlice _ _ _).
Qed.

Lemma useEffect_array_not_array props st :
  isVtkImageArrayMapper (classOf (getMapper props)) = false ->
  mapperCalls (useEffect ArrayEffect props st) = mapperCalls st.
Proof.
  intros Hclass. unfold useEffect. destruct (due _ _ _); [|done].
  simpl. unfold arrayBody. by rewrite Hclass.
Qed.

Lemma effectDeps_effects_other ids props st id :
  id ∉ ids ->
  effectDeps (foldl (fun st id => useEffect id props st) st ids) id
  = effectDeps st id.
Proof.
  revert st. induction ids as [|id0 ids IH] using rev_ind; intros st Hout.
  - done.
  - rewrite foldl_app. simpl. rewrite useEffect_deps.
    rewrite not_elem_of_app in Hout. destruct Hout as [Hout Hne].
    rewrite decide_False by (intros ->; apply Hne; by left).
    by apply IH.
Qed.

Lemma axis_effects_image axes props st :
  classOf (getMapper props) = ImageMapper ->
  (forall id, effectDeps st id = None) ->
  NoDup axes ->
  mapperCalls (foldl (fun st id => useEffect id props st) st (AxisEffect <$> axes))
  = mapperCalls st
    ++ omap (fun a => (fun v => (getMapper props, CallSetAxisSlice a v))
                        <$> sliceOf props a) axes.
Proof.
  intros Hclass Hfresh.
  induction axes as [|a axes IH] using rev_ind; intros Hnodup.
  - simpl. by rewrite app_nil_r.
  - apply NoDup_app in Hnodup as (Hnodup & Hnew & _).
    rewrite fmap_app, foldl_app. simpl.
    rewrite useEffect_axis_image; [|done|].
    + rewrite IH by done. rewrite omap_app, <- app_assoc. f_equal. simpl.
      by destruct (sliceOf props a).
    + rewrite effectDeps_effects_other; [apply Hfresh|].
      intros Hin. apply list_elem_of_fmap in Hin as (a' & [= <-] & Hin).
      apply (Hnew a Hin). by left.
Qed.

(** X12.  On mount with a [vtkImageMapper] (the internal one, or an
    instance of that class), the mapper gets one setter call for each
    slice prop that is given, in the order i, j, k, x, y, z; a prop that
    is omitted makes no call, and [setSlice] is never called. *)
Theorem image_mapper_mount_sets_given_slices props st :
  classOf (getMapper props) = ImageMapper ->
  (forall id, effectDeps st id = None) ->
  mapperCalls (sliceEffects props st) = mapperCalls st ++ givenSlices props.
Proof.
  intros Hclass Hfresh.
  pose proof (axis_effects_image [I; J; K; X; Y; Z] props st Hclass Hfresh
                NoDup_axes) as Hcalls.
  change (AxisEffect <$> [I; J; K; X; Y; Z])
    with [AxisEffect I; AxisEffect J; AxisEffect K;
          AxisEffect X; AxisEffect Y; AxisEffect Z] in Hcalls.
  rewrite sliceEffects_split.
  rewrite useEffect_array_not_array by (rewrite Hclass; reflexivity).
  exact Hcalls.
Qed.

(** *** A [vtkImageArrayMapper] *)

Lemma useEffect_axis_skip a props st :
  isVtkImageMapper (classOf (getMapper props)) = false ->
  let st' := useEffect (AxisEffect a) props st in
  mappers st' = mappers st
  /\ mapperCalls st' = mapperCalls st
  /\ modified st' = modified st
  /\ effectDeps st' ArrayEffect = effectDeps st ArrayEffect.
Proof.
  intros Hclass. cbv zeta. rewrite useEffect_deps. simpl.
  unfold useEffect. destruct (due _ _ _); [|done].
  simpl. unfold axisBody. by rewrite Hclass.
Qed.

Lemma effects_skip axes props st :
  isVtkImageMapper (classOf (getMapper props)) = false ->
  let st' := foldl (fun st id => useEffect id props st) st (AxisEffect <$> axes) in
  mappers st' = mappers st
  /\ mapperCalls st' = mapperCalls st
  /\ modified st' = modified st
  /\ effectDeps st' ArrayEffect = effectDeps st ArrayEffect.
Proof.
  intros Hclass. cbv zeta.
  induction axes as [|a axes IH] using rev_ind; [done|].
  rewrite fmap_app, foldl_app. simpl.
  destruct (useEffect_axis_skip a props
              (foldl (fun st id => useEffect id props st) st (AxisEffect <$> axes))
              Hclass) as (-> & -> & -> & ->).
  exact IH.
Qed.

Lemma axisEffects_skip props st :
  isVtkImageMapper (classOf (getMapper props)) = false ->
  let st' := axisEffects props st in
  mappers st' = mappers st
  /\ mapperCalls st' = mapperCalls st
  /\ modified st' = modified st
  /\ effectDeps st' ArrayEffect = effectDeps st ArrayEffect.
Proof.
  intros Hclass.
  pose proof (effects_skip [I; J; K; X; Y; Z] props st Hclass) as H.
  change (AxisEffect <$> [I; J; K; X; Y; Z])
    with [AxisEffect I; AxisEffect J; AxisEffect K;
          AxisEffect X; AxisEffect Y; AxisEffect Z] in H.
  exact H.
Qed.

(** The slice a [vtkImageArrayMapper] is moved to in this pass, if any:
    its effect is due, [kSlice] is given and differs from the slice the
    mapper is at. *)
Definition arrayMove (props : Props) (st : State) : option Number :=
  if due ArrayEffect props st then
    match kSlice props with
    | Some v =>
        if decide (v = getSlice (mappers st (getMapper props)))
        then None else Some v
    | None => None
    end
  else None.

(** X13.  With a [vtkImageArrayMapper] passed in, the only slice prop
    that has any effect is [kSlice]: no [setISlice] ... [setZSlice] call
    is made.  [setSlice(kSlice)] is called, and the accumulator marked,
    exactly when the effect is due and [kSlice] is given and differs from
    the mapper's slice; and if [getSlice] returns what [setSlice] stored,
    then after a pass in which the effect was due the mapper is at
    [kSlice]. *)
Theorem array_mapper_follows_kSlice props st :
  classOf (getMapper props) = ImageArrayMapper ->
  let st' := sliceEffects props st in
  let mapper := getMapper props in
  mapperCalls st'
  = mapperCalls st
    ++ match arrayMove props st with
       | Some v => [(mapper, CallSetSlice v)]
       | None => []
       end
  /\ modified st' = modified st || bool_decide (is_Some (arrayMove props st))
  /\ ((forall v ms, getSlice (setSlice v ms) = v) ->
      due ArrayEffect props st = true ->
      forall v, kSlice props = Some v -> getSlice (mappers st' mapper) = v).
Proof.
  intros Hclass. cbv zeta.
  rewrite sliceEffects_split.
  destruct (axisEffects_skip props st) as (Hm & Hc & Hmod & Hd).
  { by rewrite Hclass. }
  generalize dependent (axisEffects props st). intros st6 Hm Hc Hmod Hd.
  assert (Hdue : due ArrayEffect props st6 = due ArrayEffect props st).
  { unfold due. by rewrite Hd. }
  unfold arrayMove, useEffect. rewrite Hdue.
  destruct (due ArrayEffect props st) eqn:Edue.
  - simpl. unfold arrayBody. rewrite Hclass. simpl. rewrite Hm.
    destruct (kSlice props) as [v|] eqn:Ek; simpl.
    + destruct (decide (v = getSlice (mappers st (getMapper props)))) as [Heq|Hne];
        simpl.
      * rewrite Hc, Hmod, app_nil_r, orb_false_r.
        split; [reflexivity|]. split; [reflexivity|].
        intros _ _ v' [= <-]. by symmetry.
      * rewrite Hc, Hmod. unfold mark.
        split; [reflexivity|]. split; [reflexivity|].
        intros Hlaw _ v' [= <-]. by rewrite fn_lookup_insert.
    + rewrite Hc, Hmod, app_nil_r, orb_false_r.
      split; [reflexivity|]. split; [reflexivity|]. by intros _ _ v'.
  - rewrite Hc, Hmod, app_nil_r, orb_false_r.
    split; [reflexivity|]. split; [reflexivity|]. by intros _ [=].
Qed.

End Effects.

Arguments Props : clear implicits.
Arguments State : clear implicits.
Arguments MapperCall : clear implicits.

(** *** Closed examples

    A mapper state that is just the slice the mapper is at; the axis
    setters report whether the slice moved. *)
Definition exSetAxisSlice (_ : Axis) (v : nat) (slice : nat) : bool * nat :=
  (negb (Nat.eqb v slice), v).
Definition exGetSlice (slice : nat) : nat := slice.
Definition exSetSlice (v : nat) (_ : nat) : nat := v.

Definition exFresh : State nat nat := initial (fun _ => 7).

(** Slices i = 0 and k = 5 on the internal mapper. *)
Definition exImageProps : Props nat :=
  mkProps None (Some 0) None (Some 5) None None None.

Lemma image_mapper_mount_sets_given_slices_witness :
  mapperCalls (sliceEffects exSetAxisSlice exGetSlice exSetSlice exImageProps exFresh)
  = [(None, CallSetAxisSlice I 0); (None, CallSetAxisSlice K 5)].
Proof.
  exact (image_mapper_mount_sets_given_slices exSetAxisSlice exGetSlice
           exSetSlice exImageProps exFresh eq_refl (fun _ => eq_refl)).
Defined.

(** An array mapper passed in, with i = 3 and k = 4. *)
Definition exArrayMapper : Instance := mkInstance 1 ImageArrayMapper.

Definition exArrayProps : Props nat :=
  mkProps (Some exArrayMapper) (Some 3) None (Some 4) None None None.

Lemma array_mapper_follows_kSlice_witness :
  let st' := sliceEffects exSetAxisSlice exGetSlice exSetSlice exArrayProps exFresh in
  mapperCalls st' = [(Some exArrayMapper, CallSetSlice 4)]
  /\ modified st' = true
  /\ exGetSlice (mappers st' (Some exArrayMapper)) = 4.
Proof.
  cbv zeta.
  destruct (array_mapper_follows_kSlice exSetAxisSlice exGetSlice exSetSlice
              exArrayProps exFresh eq_refl) as (Hc & Hm & Hs).
  split; [exact Hc|]. split; [exact Hm|].
  exact (Hs (fun v ms => eq_refl) eq_refl 4 eq_refl).
Defined.

End SliceMapper.

(** ** usage/src/Volume/PET_CT_Overlay.jsx: sorting an archive into series *)

Module DicomSeries.

(** [s.endsWith(suffix)] *)
Fixpoint endsWith (suffix s : string) : bool :=
  String.eqb suffix s
  || match s with
     | EmptyString => false
     | String _ rest => endsWith suffix rest
     end.

(** [re.test(s)] for a regular expression that is a literal, as [/PT/],
    [/CT/], [/PET AC/] and [/CT IMAGES/] are: [s] contains the literal. *)
Fixpoint test (literal s : string) : bool :=
  String.prefix literal s
  || match s with
     | EmptyString => false
     | String _ rest => test literal rest
     end.

Section Classify.

(** The [ArrayBuffer] of an archive member is opaque. *)
Context {Buffer : Type}.

(** The two literals: [/PT/] and [/CT/] in [loadLocalData],
    [/PET AC/] and [/CT IMAGES/] in [loadData]. *)
Variable PTRe CTRe : string.

Record Series : Type := mkSeries {
  ctDCMFiles : list Buffer;
  ptDCMFiles : list Buffer;
}.

(** The callback of [Object.keys(decompressedFiles).forEach], on a member
    of the archive: its path and its buffer. *)
Definition classify (series : Series) (member : string * Buffer) : Series :=
  let relativePath := member.1 in
  if endsWith ".dcm" relativePath then
    if test PTRe relativePath then
      mkSeries (ctDCMFiles series) (ptDCMFiles series ++ [member.2])
    else if test CTRe relativePath then
      mkSeries (ctDCMFiles series ++ [member.2]) (ptDCMFiles series)
    else series
  else series.

(** The loop over the members, in [Object.keys] order. *)
Definition splitSeries (decompressedFiles : list (string * Buffer)) : Series :=
  foldl classify (mkSeries [] []) decompressedFiles.

(** [loadLocalData] gives up (an alert, no data) when
    [ptDCMFiles.length === 0 || ctDCMFiles.length === 0]. *)
Definition refused (series : Series) : bool :=
  Nat.eqb (length (ptDCMFiles series)) 0
  || Nat.eqb (length (ctDCMFiles series)) 0.

(** A PET member: a [.dcm] path with the PET literal in it. *)
Definition isPT (relativePath : string) : bool :=
  endsWith ".dcm" relativePath && test PTRe relativePath.

(** A CT member: a [.dcm] path with the CT literal and without the PET
    literal. *)
Definition isCT (relativePath : string) : bool :=
  endsWith ".dcm" relativePath
  && negb (test PTRe relativePath) && test CTRe relativePath.

Lemma prefix_spec (p s : string) :
  String.prefix p s = true <-> exists rest, s = String.append p rest.
Proof.
  revert s. induction p as [|c p IH]; intros s.
  - destruct s; simpl; (split; [intros _; by eexists|done]).
  - destruct s as [|d s]; simpl.
    + split; [done|]. by intros (rest & Hrest).
    + destruct (Ascii.ascii_dec c d) as [<-|Hne].
      * rewrite IH. split; intros (rest & Hrest); exists rest;
          [by rewrite Hrest | by injection Hrest].
      * split; [done|]. intros (rest & Hrest). by injection Hrest.
Qed.

Lemma test_unfold (literal s : string) :
  test literal s
  = String.prefix literal s
    || match s with
       | EmptyString => false
       | String _ rest => test literal rest
       end.
Proof. by destruct s. Qed.

Lemma endsWith_unfold (suffix s : string) :
  endsWith suffix s
  = String.eqb suffix s
    || match s with
       | EmptyString => false
       | String _ rest => endsWith suffix rest
       end.
Proof. by destruct s. Qed.

Lemma test_spec (literal s : string) :
  test literal s = true
  <-> exists before after,
        s = String.append before (String.append literal after).
Proof.
  split.
  - induction s as [|c s IH]; rewrite test_unfold, orb_true_iff.
    + intros [Hp|Hf]; [|done]. apply prefix_spec in Hp as (after & ->).
      by exists EmptyString, after.
    + intros [Hp|Hrest].
      * apply prefix_spec in Hp as (after & Hp). by exists EmptyString, after.
      * destruct (IH Hrest) as (before & after & ->).
        by exists (String c before), after.
  - intros (before & after & ->).
    induction before as [|c before IH]; rewrite test_unfold, orb_true_iff.
    + left. apply prefix_spec. by exists after.
    + by right.
Qed.

Lemma endsWith_spec (suffix s : string) :
  endsWith suffix s = true <-> exists before, s = String.append before suffix.
Proof.
  split.
  - induction s as [|c s IH]; rewrite endsWith_unfold, orb_true_iff.
    + intros [He|Hf]; [|done]. apply String.eqb_eq in He as ->.
      by exists EmptyString.
    + intros [He|Hrest].
      * apply String.eqb_eq in He as ->. by exists EmptyString.
      * destruct (IH Hrest) as (before & ->). by exists (String c before).
  - intros (before & ->).
    induction before as [|c before IH]; rewrite endsWith_unfold, orb_true_iff.
    + left. apply String.eqb_refl.
    + by right.
Qed.

Lemma filter_cons_bool {A : Type} (f : A -> bool) (x : A) (l : list A) :
  filter f (x :: l) = if f x then x :: filter f l else filter f l.
Proof.
  rewrite filter_cons. by destruct (f x).
Qed.

Lemma foldl_classify files series :
  ptDCMFiles (foldl classify series files)
  = ptDCMFiles series ++ (filter (fun m => isPT m.1) files).*2
  /\ ctDCMFiles (foldl classify series files)
     = ctDCMFiles series ++ (filter (fun m => isCT m.1) files).*2.
Proof.
  revert series. induction files as [|[path buffer] files IH]; intros series.
  - simpl. by rewrite !app_nil_r.
  - simpl. destruct (IH (classify series (path, buffer))) as [-> ->].
    rewrite !filter_cons_bool. unfold classify, isPT, isCT. simpl.
    destruct (endsWith ".dcm" path), (test PTRe path), (test CTRe path);
      simpl; by rewrite <- ?app_assoc.
Qed.

(** X15.  Sorting the members of an archive: the PET series is the
    buffers of the members whose path ends in [.dcm] and contains the PET
    literal, the CT series those whose path ends in [.dcm] and contains
    the CT literal but not the PET one, both in the order of the archive;
    every other member is dropped, and no member lands in both series.
    (Ending and containing are meant literally, as the two last parts
    say.) *)
Theorem series_split_by_path (files : list (string * Buffer)) :
  ptDCMFiles (splitSeries files) = (filter (fun m => isPT m.1) files).*2
  /\ ctDCMFiles (splitSeries files) = (filter (fun m => isCT m.1) files).*2
  /\ (forall path, isPT path && isCT path = false)
  /\ (forall s, endsWith ".dcm" s = true
                <-> exists before, s = String.append before ".dcm")
  /\ (forall literal s,
        test literal s = true
        <-> exists before after,
              s = String.append before (String.append literal after)).
Proof.
  destruct (foldl_classify files (mkSeries [] [])) as [Hpt Hct].
  split; [exact Hpt|]. split; [exact Hct|]. split.
  - intros path. unfold isPT, isCT.
    by destruct (endsWith ".dcm" path), (test PTRe path), (test CTRe path).
  - split; [intros s; apply endsWith_spec | intros literal s; apply test_spec].
Qed.

Lemma length_zero_filter {A : Type} (f : A -> bool) (l : list A) :
  Nat.eqb (length (filter f l)) 0 = negb (existsb f l).
Proof.
  induction l as [|x l IH]; [done|].
  rewrite filter_cons_bool. simpl. destruct (f x); simpl; [done|exact IH].
Qed.

Lemma no_CT_when_all_PT (files : list (string * Buffer)) :
  forallb (fun m => negb (endsWith ".dcm" m.1) || test PTRe m.1) files = true ->
  filter (fun m : string * Buffer => isCT m.1) files = [].
Proof.
  induction files as [|[path buffer] files IH]; [done|].
  simpl. intros [Hp Hall]%andb_true_iff.
  rewrite filter_cons_bool. unfold isCT at 1. simpl.
  destruct (endsWith ".dcm" path), (test PTRe path); simpl in *;
    try done; by apply IH.
Qed.

(** X16.  [loadLocalData] goes on to read the series exactly when the
    archive has a PET member and a CT member.  A [.dcm] path that
    contains both literals counts as PET only, so an archive in which
    every [.dcm] path contains the PET literal is refused, whatever else
    the paths contain. *)
Theorem archive_refused_without_both_series (files : list (string * Buffer)) :
  refused (splitSeries files)
  = negb (existsb (fun m => isPT m.1) files
          && existsb (fun m => isCT m.1) files)
  /\ (forallb (fun m => negb (endsWith ".dcm" m.1) || test PTRe m.1) files = true ->
      ctDCMFiles (splitSeries files) = []
      /\ refused (splitSeries files) = true).
Proof.
  destruct (foldl_classify files (mkSeries [] [])) as [Hpt Hct].
  unfold splitSeries, refused. rewrite Hpt, Hct. simpl.
  rewrite !length_fmap, !length_zero_filter.
  split.
  - by destruct (existsb _ files), (existsb _ files).
  - intros Hall. pose proof (no_CT_when_all_PT files Hall) as Hnone.
    rewrite Hnone. simpl. split; [done|].
    rewrite <- (length_zero_filter (fun m : string * Buffer => isCT m.1)), Hnone.
    apply orb_true_r.
Qed.

End Classify.

Arguments Series : clear implicits.

(** An archive laid out as [loadLocalData] expects, except that the CT
    folder is called [PT_CT]. *)
Definition exArchive : list (string * nat) :=
  [("PT/1.dcm", 1); ("PT_CT/1.dcm", 2); ("PT_CT/2.dcm", 3); ("readme.txt", 4)].

Lemma archive_refused_without_both_series_witness :
  ctDCMFiles (splitSeries "PT" "CT" exArchive) = []
  /\ refused (splitSeries "PT" "CT" exArchive) = true.
Proof.
  exact (proj2 (archive_refused_without_both_series "PT" "CT" exArchive) eq_refl).
Defined.

End DicomSeries.
